(** * MedievalRunner: the simulation core of the endless runner

    Shallow embedding of [src/components/MedievalRunner.tsx].  The source file
    holds two variants of the component; the second one adds lane switching
    ([currentLane], [moveLeft], [moveRight]) and is otherwise the same game
    loop, so it is the one embedded here.

    Rendering ([scene], [camera], [renderer], materials, shadows) is left out:
    no simulation value is read back from it.

    JavaScript numbers are modelled as exact rationals kept in lowest terms:
    no rounding, no overflow.  A coordinate that the source may set to
    [undefined] (an array read out of range) is an [option Q]; a comparison
    with it is false, as it is with NaN.

    The source computes in binary64, where 0.015 and 0.00002 are not exact
    and every sum is rounded.  The values of the heights and of the speed
    are therefore stated as order facts and within [tolerance] of the
    rational value, not as equalities, and [Binary64] replays the jump arc
    and the speed ramp on the primitive floats to check that the same facts
    hold there ([arc_binary64], [ramp_binary64]). *)

From Stdlib Require Import ZArith QArith Qabs Qround Lia Lqa Bool.
From Stdlib Require Import PrimFloat FloatOps SpecFloat.

Set Warnings "-inexact-float".
From stdpp Require Import base list.

Local Open Scope Q_scope.

(** ** Numbers *)

Module Num.

Definition add (a b : Q) : Q := Qred (a + b).
Definition sub (a b : Q) : Q := Qred (a - b).
Definition mul (a b : Q) : Q := Qred (a * b).
Definition div (a b : Q) : Q := Qred (a / b).

(** [a < b] and [a <= b] and [a > b] on numbers. *)
Definition lt (a b : Q) : bool := negb (Qle_bool b a).
Definition le (a b : Q) : bool := Qle_bool a b.
Definition gt (a b : Q) : bool := lt b a.

(** [Math.abs(a - b) < bound], where either side may be [undefined]. *)
Definition absDiffLt (a b : option Q) (bound : Q) : bool :=
  match a, b with
  | Some x, Some y => lt (Qabs (sub x y)) bound
  | _, _ => false
  end.

End Num.

(** ** Data *)

(** [const lanes = [-2, 0, 2]] and the read [lanes[i]]. *)
Definition lanes : list Q := [-2 # 1; 0 # 1; 2 # 1].

Definition lanesAt (i : Z) : option Q :=
  if (i <? 0)%Z then None else lanes !! Z.to_nat i.

(** [player.position]. *)
Record Vec3 := mkVec3 { vx : option Q; vy : Q; vz : Q }.

(** An obstacle mesh: its position and [geometry.parameters]. *)
Record Obstacle := mkObstacle {
  opos : Vec3;
  owidth : Q;
  oheight : Q
}.

(** A gem mesh: its position and [rotation.y]. *)
Record Gem := mkGem {
  gpos : Vec3;
  grot : Q
}.

(** [gameRef.current]. *)
Record Game := mkGame {
  player : Vec3;
  obstacles : list Obstacle;
  gems : list Gem;
  isJumping : bool;
  jumpVelocity : Q;
  speed : Q;
  score : Z;
  currentLane : Z
}.

(** The React state [gameState]. *)
Record GameState := mkGameState {
  gsScore : Z;
  isPlaying : bool;
  isGameOver : bool;
  highScore : Z
}.

(** Field updates of [gameRef.current]. *)
Definition setPlayer (p : Vec3) (g : Game) : Game :=
  mkGame p (obstacles g) (gems g) (isJumping g) (jumpVelocity g) (speed g)
         (score g) (currentLane g).
Definition setObstacles (l : list Obstacle) (g : Game) : Game :=
  mkGame (player g) l (gems g) (isJumping g) (jumpVelocity g) (speed g)
         (score g) (currentLane g).
Definition setGems (l : list Gem) (g : Game) : Game :=
  mkGame (player g) (obstacles g) l (isJumping g) (jumpVelocity g) (speed g)
         (score g) (currentLane g).
Definition setJump (b : bool) (v : Q) (g : Game) : Game :=
  mkGame (player g) (obstacles g) (gems g) b v (speed g) (score g)
         (currentLane g).
Definition setSpeed (s : Q) (g : Game) : Game :=
  mkGame (player g) (obstacles g) (gems g) (isJumping g) (jumpVelocity g) s
         (score g) (currentLane g).
Definition setScore (s : Z) (g : Game) : Game :=
  mkGame (player g) (obstacles g) (gems g) (isJumping g) (jumpVelocity g)
         (speed g) s (currentLane g).
Definition setLane (i : Z) (g : Game) : Game :=
  mkGame (player g) (obstacles g) (gems g) (isJumping g) (jumpVelocity g)
         (speed g) (score g) i.

Definition setX (x : option Q) (p : Vec3) : Vec3 := mkVec3 x (vy p) (vz p).
Definition setY (y : Q) (p : Vec3) : Vec3 := mkVec3 (vx p) y (vz p).
Definition setZ (z : Q) (p : Vec3) : Vec3 := mkVec3 (vx p) (vy p) z.

(** ** The constants of the source *)

Definition groundLevel : Q := 6 # 10.       (* 0.6 *)
Definition jumpImpulse : Q := 25 # 100.     (* 0.25 *)
Definition gravity : Q := 15 # 1000.        (* 0.015 *)
Definition baseSpeed : Q := 15 # 100.       (* 0.15 *)
Definition speedIncrement : Q := 2 # 100000. (* 0.00002 *)
Definition spawnDepth : Q := -40 # 1.
Definition passThreshold : Q := 10 # 1.
Definition playerDepth : Q := 5 # 1.

(** ** React state updates

    [setGameState] is always called with an updater function.  React queues
    the updater and runs it, on the state left by the previous one, when it
    next renders the component; the updaters of [gameLoop] read
    [gameRef.current.score] at that moment, which is the argument [refScore]
    below. *)

Inductive Update :=
| UStart      (* prev => ({...prev, score: 0, isPlaying: true, isGameOver: false}) *)
| UGameOver   (* prev => ({...prev, isPlaying: false, isGameOver: true,
                            highScore: Math.max(prev.highScore, ref.score)}) *)
| UScore.     (* prev => ({...prev, score: ref.score}) *)

Definition applyUpdate (refScore : Z) (u : Update) (prev : GameState) : GameState :=
  match u with
  | UStart => mkGameState 0 true false (highScore prev)
  | UGameOver =>
      mkGameState (gsScore prev) false true (Z.max (highScore prev) refScore)
  | UScore => mkGameState refScore (isPlaying prev) (isGameOver prev) (highScore prev)
  end.

(** ** The component: the ref, the React state, the pending updaters *)

Record World := mkWorld {
  gameRef : option Game;       (* gameRef.current, None for null *)
  gameState : GameState;       (* the state of the last render *)
  queue : list Update;         (* updaters not yet rendered *)
  container : bool             (* containerRef.current is set *)
}.

Definition setRef (r : option Game) (w : World) : World :=
  mkWorld r (gameState w) (queue w) (container w).
Definition enqueue (u : Update) (w : World) : World :=
  mkWorld (gameRef w) (gameState w) (queue w ++ [u]) (container w).

(** The next render: the queued updaters run in order.  The updaters that
    read [gameRef.current!.score] are queued by [gameLoop] only, after its
    null check, and the ref is never cleared; [0] stands for the read that
    cannot happen. *)
Definition refScore (w : World) : Z :=
  match gameRef w with Some g => score g | None => 0%Z end.

Definition render (w : World) : World :=
  mkWorld (gameRef w)
          (fold_left (fun st u => applyUpdate (refScore w) u st) (queue w) (gameState w))
          [] (container w).

(** ** initGame *)

Definition freshGame : Game :=
  mkGame (mkVec3 (Some 0) groundLevel playerDepth) [] [] false 0 baseSpeed 0%Z 1%Z.

Definition initGame (w : World) : World :=
  if container w then setRef (Some freshGame) w else w.

(** ** Random draws and the clock of one frame *)

Record Frame := mkFrame {
  wave : nat -> Q -> Q;   (* Math.sin(Date.now() * 0.003 + z), as read in the
                             callback of the gem at index k, at depth z *)
  rndObstacle : Q;        (* Math.random() < 0.02 *)
  rndWidth : Q;           (* draws of createObstacle *)
  rndHeight : Q;
  rndObstacleLane : Q;
  rndGem : Q;             (* Math.random() < 0.015 *)
  rndGemLane : Q          (* draw of createGem *)
}.

(** [lanes[Math.floor(r * lanes.length)]] *)
Definition randomLane (r : Q) : option Q :=
  lanesAt (Qfloor (Num.mul r (3 # 1))).

Definition createObstacle (f : Frame) (g : Game) : Game :=
  let width := Num.add (12 # 10) (Num.mul (rndWidth f) (12 # 10)) in
  let height := Num.add (9 # 10) (Num.mul (rndHeight f) (7 # 10)) in
  let obstacle :=
    mkObstacle (mkVec3 (randomLane (rndObstacleLane f))
                       (Num.div height (2 # 1)) spawnDepth)
               width height in
  setObstacles (obstacles g ++ [obstacle]) g.

Definition createGem (f : Frame) (g : Game) : Game :=
  let gem := mkGem (mkVec3 (randomLane (rndGemLane f)) (15 # 10) spawnDepth) 0 in
  setGems (gems g ++ [gem]) g.

(** ** Input actions *)

Definition jump (w : World) : World :=
  match gameRef w with
  | None => w
  | Some g =>
      if isJumping g then w
      else setRef (Some (setJump true jumpImpulse g)) w
  end.

Definition moveLeft (w : World) : World :=
  match gameRef w with
  | None => w
  | Some g =>
      if (0 <? currentLane g)%Z then
        let i := (currentLane g - 1)%Z in
        setRef (Some (setPlayer (setX (lanesAt i) (player g)) (setLane i g))) w
      else w
  end.

Definition moveRight (w : World) : World :=
  match gameRef w with
  | None => w
  | Some g =>
      if (currentLane g <? 2)%Z then
        let i := (currentLane g + 1)%Z in
        setRef (Some (setPlayer (setX (lanesAt i) (player g)) (setLane i g))) w
      else w
  end.

(** The block under [// Reset game state]. *)
Definition resetGame (g : Game) : Game :=
  setLane 1
    (setScore 0
       (setSpeed baseSpeed
          (setPlayer (mkVec3 (Some 0) groundLevel playerDepth)
             (setGems [] (setObstacles [] g))))).

Definition startGame (w : World) : World :=
  let w1 := match gameRef w with None => initGame w | Some _ => w end in
  let w2 := setRef (resetGame <$> gameRef w1) w1 in
  enqueue UStart w2.

(** ** Array.prototype.forEach and splice

    [forEach] reads the length once, then for each index [k] below it calls
    the callback on the element found at [k] at that moment, and passes over
    an index that the array no longer has.  The state [S] holds the array,
    which the callback may change. *)

Section ForEach.
Context {A S : Type} (arr : S -> list A) (callbackfn : A -> nat -> S -> S).

Fixpoint forEachFrom (k len : nat) (s : S) : S :=
  match len with
  | O => s
  | Datatypes.S len' =>
      forEachFrom (Datatypes.S k) len'
        (match arr s !! k with
         | Some a => callbackfn a k s
         | None => s
         end)
  end.

Definition forEach (s : S) : S := forEachFrom 0 (length (arr s)) s.
End ForEach.

(** [l.splice(index, 1)] *)
Definition splice1 {A} (index : nat) (l : list A) : list A := delete index l.

(** ** gameLoop *)

(** The ref together with the updaters queued so far. *)
Definition Mem : Type := Game * list Update.

(** [// Jump physics] *)
Definition jumpPhysics (g : Game) : Game :=
  if isJumping g then
    let y := Num.add (vy (player g)) (jumpVelocity g) in
    let v := Num.sub (jumpVelocity g) gravity in
    if Num.le y groundLevel then
      setJump false 0 (setPlayer (setY groundLevel (player g)) g)
    else
      setJump true v (setPlayer (setY y (player g)) g)
  else g.

(** [// Rotate gems]: each gem is turned and set to its new height in
    place. *)
Definition bobGem (f : Frame) (k : nat) (gem : Gem) : Gem :=
  mkGem (setY (Num.add (15 # 10) (Num.mul (wave f k (vz (gpos gem))) (2 # 10)))
              (gpos gem))
        (Num.add (grot gem) (5 # 100)).

Definition bobStep (f : Frame) (gem : Gem) (index : nat) (g : Game) : Game :=
  setGems (<[index := bobGem f index gem]> (gems g)) g.

Definition bobGems (f : Frame) (g : Game) : Game := forEach gems (bobStep f) g.

(** The test of [// Collision detection], on the obstacle after its move. *)
Definition hits (p : Vec3) (o : Obstacle) : bool :=
  Num.absDiffLt (vx (opos o)) (vx p) 1
  && Num.absDiffLt (Some (vz (opos o))) (Some (vz p)) 1
  && Num.lt (vy p) (Num.add (oheight o) (3 # 10)).

(** The test of [// Gem collection], on the gem after its move. *)
Definition collects (p : Vec3) (gem : Gem) : bool :=
  Num.absDiffLt (vx (gpos gem)) (vx p) 1
  && Num.absDiffLt (Some (vz (gpos gem))) (Some (vz p)) 1
  && Num.absDiffLt (Some (vy (gpos gem))) (Some (vy p)) (15 # 10).

Definition moveObstacle (sp : Q) (o : Obstacle) : Obstacle :=
  mkObstacle (setZ (Num.add (vz (opos o)) sp) (opos o)) (owidth o) (oheight o).

Definition moveGem (sp : Q) (gem : Gem) : Gem :=
  mkGem (setZ (Num.add (vz (gpos gem)) sp) (gpos gem)) (grot gem).

(** The callback of [obstacles.forEach]: the obstacle is moved in place;
    on a hit the game-over updater is queued and [return] leaves the
    callback; otherwise a passed obstacle is spliced out at [index]. *)
Definition obstacleStep (sp : Q) (obstacle : Obstacle) (index : nat) (m : Mem) : Mem :=
  let '(g, q) := m in
  let o := moveObstacle sp obstacle in
  let g1 := setObstacles (<[index := o]> (obstacles g)) g in
  if hits (player g1) o then (g1, q ++ [UGameOver])
  else if Num.gt (vz (opos o)) passThreshold then
    (setObstacles (splice1 index (obstacles g1)) g1, q)
  else (g1, q).

(** The callback of [gems.forEach]: two independent [if]s. *)
Definition gemStep (sp : Q) (gem : Gem) (index : nat) (m : Mem) : Mem :=
  let '(g, q) := m in
  let gm := moveGem sp gem in
  let g1 := setGems (<[index := gm]> (gems g)) g in
  let '(g2, q2) :=
    if collects (player g1) gm then
      let g' := setGems (splice1 index (gems g1)) g1 in
      (setScore (score g' + 10)%Z g', q ++ [UScore])
    else (g1, q) in
  if Num.gt (vz (gpos gm)) passThreshold then
    (setGems (splice1 index (gems g2)) g2, q2)
  else (g2, q2).

(** [// Spawn new obstacles and gems] *)
Definition spawn (f : Frame) (g : Game) : Game :=
  let g1 := if Num.lt (rndObstacle f) (2 # 100) then createObstacle f g else g in
  if Num.lt (rndGem f) (15 # 1000) then createGem f g1 else g1.

(** The body of [gameLoop] past its guard. *)
Definition tick (f : Frame) (m : Mem) : Mem :=
  let '(g, q) := m in
  let g1 := bobGems f (jumpPhysics g) in
  let sp := speed g1 in
  let m2 := forEach (fun m => obstacles (fst m)) (obstacleStep sp) (g1, q) in
  let '(g3, q3) := forEach (fun m => gems (fst m)) (gemStep sp) m2 in
  let g4 := spawn f g3 in
  (setSpeed (Num.add (speed g4) speedIncrement) g4, q3).

Definition gameLoop (f : Frame) (w : World) : World :=
  match gameRef w with
  | None => w
  | Some g =>
      if negb (isPlaying (gameState w)) then w
      else
        let '(g', q') := tick f (g, queue w) in
        mkWorld (Some g') (gameState w) q' (container w)
  end.

(** ** Event handlers *)

Inductive KeyCode := Space | ArrowLeft | KeyA | ArrowRight | KeyD | OtherKey.

Definition handleKeyDown (code : KeyCode) (w : World) : World :=
  let st := gameState w in
  let w1 :=
    match code with
    | Space =>
        if negb (isPlaying st) && negb (isGameOver st) then startGame w
        else if isPlaying st then jump w
        else if isGameOver st then startGame w
        else w
    | _ => w
    end in
  if isPlaying st then
    let w2 := match code with ArrowLeft | KeyA => moveLeft w1 | _ => w1 end in
    match code with ArrowRight | KeyD => moveRight w2 | _ => w2 end
  else w1.

Definition handleClick (w : World) : World :=
  let st := gameState w in
  if negb (isPlaying st) && negb (isGameOver st) then startGame w
  else if isPlaying st then jump w
  else w.

(** The [Begin Quest] and [Try Again] buttons call [startGame]; the first is
    rendered on the start screen, the second on the game-over screen.  The
    click then reaches the listener of the window, [handleClick], whose
    [gameState] is still that of the last render: on the start screen it
    calls [startGame] a second time, on the game-over screen it does
    nothing. *)
Definition clickButton (w : World) : World :=
  let st := gameState w in
  if (negb (isPlaying st) && negb (isGameOver st)) || isGameOver st
  then handleClick (startGame w) else w.

(** What the host delivers to the component; React renders after each. *)
Inductive Event :=
| KeyDown (code : KeyCode)
| Click
| Button
| AnimationFrame (f : Frame).

Definition handle (e : Event) (w : World) : World :=
  match e with
  | KeyDown code => handleKeyDown code w
  | Click => handleClick w
  | Button => clickButton w
  | AnimationFrame f => gameLoop f w
  end.

Definition step (e : Event) (w : World) : World := render (handle e w).

Definition run (es : list Event) (w : World) : World :=
  fold_left (fun w e => step e w) es w.

(** The component after mounting: the effect has called [initGame]. *)
Definition idleState : GameState := mkGameState 0 false false 0.

Definition mount (hasContainer : bool) : World :=
  initGame (mkWorld None idleState [] hasContainer).

(** * Definitions used in the statements *)

(** The kinematic part of the ref. *)
Definition kin (g : Game) : Vec3 * bool * Q * Q * Z :=
  (player g, isJumping g, jumpVelocity g, speed g, currentLane g).

(** The number of score updaters in a queue, and the score less ten times
    that number. *)
Definition isScoreUpdate (u : Update) : bool :=
  match u with UScore => true | _ => false end.

Definition countScore (q : list Update) : Z :=
  Z.of_nat (length (List.filter isScoreUpdate q)).

Definition scoreBalance (m : Mem) : Z := (score (fst m) - 10 * countScore (snd m))%Z.

(** [P] holds of the ref, if there is one. *)
Definition refHolds (P : Game -> Prop) (w : World) : Prop :=
  match gameRef w with Some g => P g | None => True end.

(** A frame in which nothing spawns and the gems sit at height 1.5. *)
Definition quietFrame : Frame := mkFrame (fun _ _ => 0) 1 0 0 0 1 0.

(** Start, jump, one frame: the player is in the air. *)
Definition firstJump : list Event :=
  [Button; KeyDown Space; AnimationFrame quietFrame].

Definition airborne : Game :=
  mkGame (mkVec3 (Some 0) (17 # 20) playerDepth) [] [] true (47 # 200)
         (7501 # 50000) 0%Z 1%Z.

(** Direct calls of [moveLeft()] and [moveRight()]. *)
Inductive LaneCall := CallMoveLeft | CallMoveRight.

Definition call (m : LaneCall) (w : World) : World :=
  match m with CallMoveLeft => moveLeft w | CallMoveRight => moveRight w end.

Definition calls (ms : list LaneCall) (w : World) : World :=
  fold_left (fun w m => call m w) ms w.

Definition laneSnapped (g : Game) : Prop :=
  (0 <= currentLane g <= 2)%Z /\ vx (player g) = lanesAt (currentLane g).

(** Start, then two calls of [moveLeft()]. *)
Definition atLeftWall : Game :=
  mkGame (mkVec3 (Some (-2 # 1)) groundLevel playerDepth) [] [] false 0 baseSpeed 0%Z 0%Z.

(** A non-negative multiple of 10. *)
Definition tens (z : Z) : Prop := exists k : Z, (0 <= k)%Z /\ z = (10 * k)%Z.

(** The component right after [Begin Quest]. *)
Definition started : World := run [Button] (mount true).

(** ** Scenarios

    Each scenario is a sequence of events from the mounted component and
    the state it leads to, written out. *)

Definition frames (n : nat) : list Event := repeat (AnimationFrame quietFrame) n.

(** A frame that spawns an obstacle of the least size, and one that spawns
    a gem; [r] is the lane draw. *)
Definition obstacleFrame (r : Q) : Frame := mkFrame (fun _ _ => 0) 0 0 0 r 1 0.
Definition gemFrame (r : Q) : Frame := mkFrame (fun _ _ => 0) 1 0 0 0 0 r.

(** The rendered state during a first run and after losing it with no gem. *)
Definition playing : GameState := mkGameState 0 true false 0.
Definition lost : GameState := mkGameState 0 false true 0.

(** The player on the ground of the centre lane; an obstacle of the least
    size. *)
Definition standing : Vec3 := mkVec3 (Some 0) groundLevel playerDepth.

Definition block (x : Q) (z : Q) : Obstacle :=
  mkObstacle (mkVec3 (Some x) (9 # 20) z) (6 # 5) (9 # 10).

(** The player waits in the right lane; an obstacle comes down the left
    lane and a second one, 33 frames later, down the centre lane; the player
    steps into the centre lane just before the first one passes depth 10. *)
Definition pruneBeforeHit : list Event :=
  [Button; KeyDown ArrowRight; AnimationFrame (obstacleFrame 0)] ++ frames 32
  ++ [AnimationFrame (obstacleFrame (1 # 2))] ++ frames 293 ++ [KeyDown ArrowLeft].

Definition passing : Obstacle := block (-2 # 1) (498301 # 50000).
Definition inReach : Obstacle := block 0 (3128 # 625).

Definition pruneBeforeHitGame : Game :=
  mkGame standing [passing; inReach] [] false 0 (7827 # 50000) 0%Z 1%Z.

Definition pruneBeforeHitWorld : World :=
  mkWorld (Some pruneBeforeHitGame) playing [] true.

(** Two obstacles come down the centre lane one frame apart while the player
    waits in the right lane, and the player steps into the centre lane when
    both are within reach. *)
Definition twoInReach : list Event :=
  [Button; KeyDown ArrowRight; AnimationFrame (obstacleFrame (1 # 2));
   AnimationFrame (obstacleFrame (1 # 2))] ++ frames 290 ++ [KeyDown ArrowLeft].

Definition twoInReachGame : Game :=
  mkGame standing [block 0 (112493 # 25000); block 0 (43497 # 10000)] [] false 0
         (487 # 3125) 0%Z 1%Z.

Definition twoInReachWorld : World := mkWorld (Some twoInReachGame) playing [] true.

(** The same with two gems. *)
Definition twoGems : list Event :=
  [Button; KeyDown ArrowRight; AnimationFrame (gemFrame (1 # 2));
   AnimationFrame (gemFrame (1 # 2))] ++ frames 290 ++ [KeyDown ArrowLeft].

Definition firstGem : Gem := mkGem (mkVec3 (Some 0) (3 # 2) (112493 # 25000)) (291 # 20).
Definition secondGem : Gem := mkGem (mkVec3 (Some 0) (3 # 2) (43497 # 10000)) (29 # 2).

Definition twoGemsGame : Game :=
  mkGame standing [] [firstGem; secondGem] false 0 (487 # 3125) 0%Z 1%Z.

Definition twoGemsWorld : World := mkWorld (Some twoGemsGame) playing [] true.

(** The player jumps one frame before an obstacle comes within reach and is
    hit while rising. *)
Definition hitWhileRising : list Event :=
  [Button; AnimationFrame (obstacleFrame (1 # 2))] ++ frames 287
  ++ [KeyDown Space; AnimationFrame quietFrame].

Definition hitWhileRisingGame : Game :=
  mkGame (mkVec3 (Some 0) (17 # 20) playerDepth) [block 0 (12601 # 3125)] [] true
         (47 # 200) (7789 # 50000) 0%Z 1%Z.

Definition hitWhileRisingWorld : World := mkWorld (Some hitWhileRisingGame) lost [] true.

(** The ref after [Try Again] in that state. *)
Definition restartedGame : Game :=
  mkGame standing [] [] true (47 # 200) baseSpeed 0%Z 1%Z.

(** ** The overlays of the rendered component

    The conditions under which the returned JSX holds the start screen, the
    game-over screen, its [New High Score!] line and the controls hint. *)

Definition showStartScreen (st : GameState) : bool :=
  negb (isPlaying st) && negb (isGameOver st).

Definition showGameOverScreen (st : GameState) : bool := isGameOver st.

Definition showNewHighScore (st : GameState) : bool :=
  isGameOver st && ((highScore st <=? gsScore st)%Z && (0 <? gsScore st)%Z).

Definition showControlsHint (st : GameState) : bool := isPlaying st.

(** ** createStoneTexture: the colour channels

    [(baseColor >> 16) & 255], [(baseColor >> 8) & 255] and [baseColor & 255]
    of an integer colour: the bit operators work on the 32-bit integer of
    their operand.  [shade] is [Math.min(255, Math.max(0, c + variation))]. *)

Definition toInt32 (n : Z) : Z := ((n + 2 ^ 31) mod 2 ^ 32 - 2 ^ 31)%Z.

Definition channelR (baseColor : Z) : Z := Z.land (Z.shiftr (toInt32 baseColor) 16) 255.
Definition channelG (baseColor : Z) : Z := Z.land (Z.shiftr (toInt32 baseColor) 8) 255.
Definition channelB (baseColor : Z) : Z := Z.land (toInt32 baseColor) 255.

Definition mathMin (a b : Q) : Q := if Num.le a b then a else b.
Definition mathMax (a b : Q) : Q := if Num.le a b then b else a.

Definition shade (c : Z) (variation : Q) : Q :=
  mathMin (255 # 1) (mathMax 0 (Num.add (inject_Z c) variation)).

(** ** Several frames in a row, and the arc of a jump *)

Definition ticks (fs : list Frame) (m : Mem) : Mem :=
  fold_left (fun m f => tick f m) fs m.

(** The height, the vertical velocity and the jumping flag. *)
Definition jumpState (g : Game) : Q * Q * bool :=
  (vy (player g), jumpVelocity g, isJumping g).

(** 0.6 + 0.25 k - 0.0075 k (k - 1) *)
Definition arcHeight (k : nat) : Q :=
  (6 # 10) + (25 # 100) * inject_Z (Z.of_nat k)
  - (75 # 10000) * inject_Z (Z.of_nat k) * (inject_Z (Z.of_nat k) - 1).

(** One frame of [// Jump physics] on the height, the velocity and the
    flag alone; and the check of the first 35 frames of a jump: in the air,
    at the height [arcHeight], at most 2.81, above the ground. *)
Definition arcStep (t : Q * Q * bool) : Q * Q * bool :=
  let '(y, v, j) := t in
  if j then
    if Num.le (Num.add y v) groundLevel then (groundLevel, 0, false)
    else (Num.add y v, Num.sub v gravity, true)
  else t.

Definition arcOK (k : nat) : bool :=
  let '(y, v, j) := Nat.iter k arcStep (groundLevel, jumpImpulse, true) in
  j && Qeq_bool y (arcHeight k) && Num.le y (281 # 100)
  && (Nat.eqb k 0 || Num.lt groundLevel y).

(** The obstacle and the gem that [createObstacle] and [createGem] push. *)
Definition spawnedObstacle (f : Frame) : Obstacle :=
  mkObstacle (mkVec3 (randomLane (rndObstacleLane f))
                     (Num.div (Num.add (9 # 10) (Num.mul (rndHeight f) (7 # 10))) (2 # 1))
                     spawnDepth)
             (Num.add (12 # 10) (Num.mul (rndWidth f) (12 # 10)))
             (Num.add (9 # 10) (Num.mul (rndHeight f) (7 # 10))).

Definition spawnedGem (f : Frame) : Gem :=
  mkGem (mkVec3 (randomLane (rndGemLane f)) (15 # 10) spawnDepth) 0.

(** The obstacles of a list that hit the player after their move. *)
Definition hitters (p : Vec3) (sp : Q) (l : list Obstacle) : list Obstacle :=
  List.filter (fun o => hits p (moveObstacle sp o)) l.

(** Draws of [Math.random()]: in [0, 1). *)
Definition unitDraw (r : Q) : Prop := 0 <= r /\ r < 1.

(** The depths an entity can have: from the spawn depth -40 to the
    pass-through depth 10; and the ref all of whose entities have one, with
    the player at depth 5 and the speed at least the base speed. *)
Definition depthInRange (z : Q) : Prop := spawnDepth <= z /\ z <= passThreshold.

Definition bounded (g : Game) : Prop :=
  vz (player g) = playerDepth /\
  Forall (fun o => depthInRange (vz (opos o))) (obstacles g) /\
  Forall (fun gem => depthInRange (vz (gpos gem))) (gems g).

Definition isGameOverUpdate (u : Update) : bool :=
  match u with UGameOver => true | _ => false end.

Definition isStartUpdate (u : Update) : bool :=
  match u with UStart => true | _ => false end.

(** The rendered score is the score of the ref, nothing is queued, the two
    phase flags are not both set, and outside a run the score does not
    exceed the high score. *)
Definition synced (w : World) : Prop :=
  queue w = [] /\
  gsScore (gameState w) = refScore w /\
  isPlaying (gameState w) && isGameOver (gameState w) = false /\
  (isPlaying (gameState w) = false ->
   (gsScore (gameState w) <= highScore (gameState w))%Z).

(** ** Starts, and the gems a frame collects *)

(** The events that call [startGame], by the rendered state that the
    handlers see: Space on the start screen and on the game-over screen, a
    click on the window on the start screen, a button where it is rendered. *)
Definition startsRun (e : Event) (st : GameState) : bool :=
  match e with
  | KeyDown Space =>
      (negb (isPlaying st) && negb (isGameOver st))
      || (negb (isPlaying st) && isGameOver st)
  | Click => negb (isPlaying st) && negb (isGameOver st)
  | Button => (negb (isPlaying st) && negb (isGameOver st)) || isGameOver st
  | _ => false
  end.

(** What [gems.forEach] does to the gems from the visited index on, and how
    many of them it collects.  A visited gem is moved; if it meets the
    collection test or has passed depth 10 it is spliced out, and the gem
    that takes its index is passed over: it stays as it is and the visit
    goes on with the gem after it. *)
Fixpoint gemsPass (p : Vec3) (sp : Q) (l : list Gem) : list Gem * nat :=
  match l with
  | [] => ([], O)
  | gem :: rest =>
      let gm := moveGem sp gem in
      if collects p gm || Num.gt (vz (gpos gm)) passThreshold then
        let '(kept, n) :=
          match rest with
          | [] => ([], O)
          | next :: rest' => let '(kept, n) := gemsPass p sp rest' in (next :: kept, n)
          end in
        (kept, if collects p gm then S n else n)
      else
        let '(kept, n) := gemsPass p sp rest in (gm :: kept, n)
  end.

(** The number of gems that a frame collects: the gems are those left by
    the bob loop, the player is as the jump physics left it. *)
Definition collectedGems (f : Frame) (g : Game) : nat :=
  snd (gemsPass (player (jumpPhysics g)) (speed g) (gems (bobGems f (jumpPhysics g)))).

(** The margin within which values are stated: binary64 rounding stays far
    inside it for the speeds and heights of the game. *)
Definition tolerance : Q := 1 # 1000000000.

(** ** The two numeric recurrences in binary64

    The jump physics and the speed ramp once more, on the binary64 numbers
    of the source, to be compared with the rational ones. *)

Module Binary64.

(** The rational value of a finite binary64 number. *)
Definition toQ (x : float) : option Q :=
  match Prim2SF x with
  | S754_zero _ => Some 0
  | S754_finite s m e =>
      let mz := if s then Z.neg m else Z.pos m in
      Some (if (e <? 0)%Z then mz # (2 ^ Z.to_pos (- e)) else inject_Z (mz * 2 ^ e))
  | _ => None
  end.

Definition within (x : float) (q : Q) : bool :=
  match toQ x with
  | Some v => Qle_bool (Qabs (v - q)) tolerance
  | None => false
  end.

(** [// Jump physics] on the height, the velocity and the flag. *)
Definition arcStepF (t : float * float * bool) : float * float * bool :=
  let '(y, v, j) := t in
  if j then
    let y' := (y + v)%float in
    let v' := (v - 0.015)%float in
    if (y' <=? 0.6)%float then (0.6%float, 0%float, false) else (y', v', true)
  else t.

Definition arcStartF : float * float * bool := (0.6%float, 0.25%float, true).

Definition arcCheckF (k : nat) : bool :=
  let '(y, v, j) := Nat.iter k arcStepF arcStartF in
  j && within y (arcHeight k) && (Nat.eqb k 0 || (0.6 <? y)%float) && (y <? 2.81)%float.

(** [gameRef.current.speed += 0.00002], and the check of one frame: the new
    speed is larger and within the margin of the old one plus 0.00002. *)
Definition rampStepF (s : float) : float := (s + 0.00002)%float.

Definition rampCheckF (t : float * bool) : float * bool :=
  let '(s, ok) := t in
  let s' := rampStepF s in
  (s', ok && (s <? s')%float
       && match toQ s with
          | Some v => within s' (v + speedIncrement)
          | None => false
          end).

End Binary64.

(** * Properties *)

(** ** Numbers *)

Module NumFacts.

Import Num.

Lemma add_eq a b : add a b == a + b.
Proof. apply Qred_correct. Qed.

Lemma sub_eq a b : sub a b == a - b.
Proof. apply Qred_correct. Qed.

Lemma lt_spec a b : lt a b = true <-> a < b.
Proof.
  unfold lt. rewrite negb_true_iff, <- not_true_iff_false, Qle_bool_iff.
  split; [apply Qnot_le_lt | apply Qlt_not_le].
Qed.

Lemma lt_false a b : lt a b = false <-> b <= a.
Proof.
  unfold lt. rewrite negb_false_iff. apply Qle_bool_iff.
Qed.

Lemma le_spec a b : le a b = true <-> a <= b.
Proof. apply Qle_bool_iff. Qed.

Lemma le_false a b : le a b = false <-> b < a.
Proof.
  unfold le. rewrite <- not_true_iff_false, Qle_bool_iff.
  split; [apply Qnot_le_lt | apply Qlt_not_le].
Qed.

End NumFacts.

(** ** forEach: what every callback keeps, the loop keeps *)

Lemma forEachFrom_preserves {A S : Type} (arr : S -> list A)
      (cb : A -> nat -> S -> S) (P : S -> Prop) :
  (forall a k s, P s -> P (cb a k s)) ->
  forall len k s, P s -> P (forEachFrom arr cb k len s).
Proof.
  intros Hcb len. induction len as [|len IH]; intros k s Hs; cbn.
  - exact Hs.
  - apply IH. destruct (arr s !! k); auto.
Qed.

Lemma forEachFrom_S {A S : Type} (arr : S -> list A) (cb : A -> nat -> S -> S)
      (k len : nat) (s : S) :
  forEachFrom arr cb k (Datatypes.S len) s =
  forEachFrom arr cb (Datatypes.S k) len
    (match arr s !! k with Some a => cb a k s | None => s end).
Proof. reflexivity. Qed.

Lemma forEach_preserves {A S : Type} (arr : S -> list A)
      (cb : A -> nat -> S -> S) (P : S -> Prop) :
  (forall a k s, P s -> P (cb a k s)) ->
  forall s, P s -> P (forEach arr cb s).
Proof. intros Hcb s Hs. exact (forEachFrom_preserves arr cb P Hcb _ _ _ Hs). Qed.

(** ** The kinematic part of the ref: untouched by the two entity loops *)

Lemma obstacleStep_kin sp o k m : kin (fst (obstacleStep sp o k m)) = kin (fst m).
Proof.
  destruct m as [g q]. unfold obstacleStep.
  destruct (hits _ _); [reflexivity|].
  destruct (Num.gt _ _); reflexivity.
Qed.

Lemma gemStep_kin sp gm k m : kin (fst (gemStep sp gm k m)) = kin (fst m).
Proof.
  destruct m as [g q]. unfold gemStep.
  destruct (collects _ _); destruct (Num.gt _ _); reflexivity.
Qed.

Lemma bobGems_kin f g : kin (bobGems f g) = kin g.
Proof.
  apply (forEach_preserves _ _ (fun g' => kin g' = kin g)); [|reflexivity].
  intros a k s Hs. exact Hs.
Qed.

Lemma spawn_kin f g : kin (spawn f g) = kin g.
Proof.
  unfold spawn. destruct (Num.lt (rndObstacle f) _), (Num.lt (rndGem f) _); reflexivity.
Qed.

Lemma loops_kin sp g q :
  kin (fst (forEach (fun m => gems (fst m)) (gemStep sp)
              (forEach (fun m => obstacles (fst m)) (obstacleStep sp) (g, q)))) = kin g.
Proof.
  apply (forEach_preserves _ _ (fun m => kin (fst m) = kin g)).
  { intros a k s Hs. rewrite gemStep_kin. exact Hs. }
  apply (forEach_preserves _ _ (fun m => kin (fst m) = kin g)).
  { intros a k s Hs. rewrite obstacleStep_kin. exact Hs. }
  reflexivity.
Qed.

Lemma tick_kin f g q :
  let g0 := jumpPhysics g in
  let g' := fst (tick f (g, q)) in
  player g' = player g0 /\ isJumping g' = isJumping g0 /\
  jumpVelocity g' = jumpVelocity g0 /\
  speed g' = Num.add (speed g) speedIncrement /\
  currentLane g' = currentLane g.
Proof.
  cbv zeta. unfold tick.
  pose proof (loops_kin (speed (bobGems f (jumpPhysics g))) (bobGems f (jumpPhysics g)) q) as H.
  destruct (forEach (fun m => gems (fst m)) _ _) as [g3 q3]. cbn [fst] in *.
  pose proof (spawn_kin f g3) as H4. rewrite H, bobGems_kin in H4.
  unfold kin in H4. injection H4 as Hp Hj Hv Hs Hl.
  cbn [setSpeed player isJumping jumpVelocity speed currentLane].
  rewrite Hp, Hj, Hv, Hs, Hl.
  repeat split; unfold jumpPhysics;
    destruct (isJumping g); try reflexivity;
    destruct (Num.le _ _); reflexivity.
Qed.

(** ** The score and the queued score updaters move together *)

Lemma countScore_app q u :
  countScore (q ++ [u]) = (countScore q + (if isScoreUpdate u then 1 else 0))%Z.
Proof.
  unfold countScore. rewrite List.filter_app, length_app. cbn.
  destruct (isScoreUpdate u); cbn; lia.
Qed.

Lemma obstacleStep_balance sp o k m :
  scoreBalance (obstacleStep sp o k m) = scoreBalance m.
Proof.
  destruct m as [g q]. unfold obstacleStep, scoreBalance.
  destruct (hits _ _).
  - cbn [fst snd]. rewrite countScore_app. cbn. lia.
  - destruct (Num.gt _ _); reflexivity.
Qed.

Lemma gemStep_balance sp gm k m :
  scoreBalance (gemStep sp gm k m) = scoreBalance m.
Proof.
  destruct m as [g q]. unfold gemStep, scoreBalance.
  destruct (collects _ _); destruct (Num.gt _ _); cbn [fst snd setGems setScore score];
    rewrite ?countScore_app; cbn; lia.
Qed.

Lemma obstacleStep_countScore sp o k m :
  countScore (snd (obstacleStep sp o k m)) = countScore (snd m).
Proof.
  destruct m as [g q]. unfold obstacleStep.
  destruct (hits _ _).
  - cbn [snd]. rewrite countScore_app. cbn. lia.
  - destruct (Num.gt _ _); reflexivity.
Qed.

Lemma gemStep_countScore sp gm k m :
  (countScore (snd m) <= countScore (snd (gemStep sp gm k m)))%Z.
Proof.
  destruct m as [g q]. unfold gemStep.
  destruct (collects _ _); destruct (Num.gt _ _); cbn [snd];
    rewrite ?countScore_app; cbn; lia.
Qed.

Lemma bobGems_score f g : score (bobGems f g) = score g.
Proof.
  apply (forEach_preserves _ _ (fun g' => score g' = score g)); [|reflexivity].
  intros a k s Hs. exact Hs.
Qed.

Lemma spawn_score f g : score (spawn f g) = score g.
Proof.
  unfold spawn. destruct (Num.lt (rndObstacle f) _), (Num.lt (rndGem f) _); reflexivity.
Qed.

(** One frame adds ten for every score updater it queues, and nothing else. *)
Lemma tick_score f g q :
  let m' := tick f (g, q) in
  score (fst m') = (score g + 10 * (countScore (snd m') - countScore q))%Z /\
  (countScore q <= countScore (snd m'))%Z.
Proof.
  cbv zeta. unfold tick.
  set (g1 := bobGems f (jumpPhysics g)).
  set (sp := speed g1).
  assert (Hg1 : scoreBalance (g1, q) = (score g - 10 * countScore q)%Z).
  { unfold scoreBalance, g1. cbn [fst snd]. rewrite bobGems_score.
    unfold jumpPhysics.
    destruct (isJumping g); [destruct (Num.le _ _)|]; reflexivity. }
  set (m2 := forEach (fun m => obstacles (fst m)) (obstacleStep sp) (g1, q)).
  assert (H2 : scoreBalance m2 = scoreBalance (g1, q) /\ countScore (snd m2) = countScore q).
  { apply (forEach_preserves _ _
      (fun m => scoreBalance m = scoreBalance (g1, q) /\ countScore (snd m) = countScore q)).
    - intros a k s [Hb Hc]. rewrite obstacleStep_balance, obstacleStep_countScore. auto.
    - auto. }
  assert (H3 : scoreBalance (forEach (fun m => gems (fst m)) (gemStep sp) m2) = scoreBalance m2
               /\ (countScore (snd m2) <= countScore (snd (forEach (fun m => gems (fst m)) (gemStep sp) m2)))%Z).
  { apply (forEach_preserves _ _
      (fun m => scoreBalance m = scoreBalance m2 /\ (countScore (snd m2) <= countScore (snd m))%Z)).
    - intros a k s [Hb Hc]. rewrite gemStep_balance. split; [exact Hb|].
      pose proof (gemStep_countScore sp a k s). lia.
    - split; [reflexivity | lia]. }
  destruct (forEach (fun m => gems (fst m)) (gemStep sp) m2) as [g3 q3].
  destruct H2 as [H2 H2c]. destruct H3 as [H3 H3c].
  unfold scoreBalance in *. cbn [fst snd] in *.
  cbn [setSpeed score]. rewrite spawn_score. lia.
Qed.

(** ** Invariants of the ref along any sequence of events *)

Lemma render_gameRef w : gameRef (render w) = gameRef w.
Proof. reflexivity. Qed.

Lemma gameLoop_gameRef f w g :
  gameRef w = Some g ->
  gameRef (gameLoop f w) =
    Some (if isPlaying (gameState w) then fst (tick f (g, queue w)) else g).
Proof.
  intros Hg. unfold gameLoop. rewrite Hg.
  destruct (isPlaying (gameState w)); cbn [negb].
  - destruct (tick f (g, queue w)); reflexivity.
  - exact Hg.
Qed.

(** The three cases of a click on a button. *)
Lemma clickButton_cases w :
  clickButton w =
  if negb (isPlaying (gameState w)) && negb (isGameOver (gameState w))
  then startGame (startGame w)
  else if isGameOver (gameState w)
       then (if isPlaying (gameState w) then jump (startGame w) else startGame w)
       else w.
Proof.
  assert (Hs : gameState (startGame w) = gameState w).
  { unfold startGame. cbn [enqueue setRef gameState].
    destruct (gameRef w); [reflexivity|].
    unfold initGame. destruct (container w); reflexivity. }
  unfold clickButton, handleClick. rewrite Hs.
  destruct (isPlaying (gameState w)), (isGameOver (gameState w)); reflexivity.
Qed.

Section RefInvariant.
Variable P : Game -> Prop.
Hypothesis P_fresh : P freshGame.
Hypothesis P_reset : forall g, P (resetGame g).
Hypothesis P_jump : forall g, P g -> isJumping g = false -> P (setJump true jumpImpulse g).
Hypothesis P_left : forall g, P g -> (0 < currentLane g)%Z ->
  let i := (currentLane g - 1)%Z in
  P (setPlayer (setX (lanesAt i) (player g)) (setLane i g)).
Hypothesis P_right : forall g, P g -> (currentLane g < 2)%Z ->
  let i := (currentLane g + 1)%Z in
  P (setPlayer (setX (lanesAt i) (player g)) (setLane i g)).
Hypothesis P_tick : forall f g q, P g -> P (fst (tick f (g, q))).

Lemma jump_refHolds w : refHolds P w -> refHolds P (jump w).
Proof.
  unfold refHolds, jump. destruct (gameRef w) as [g|] eqn:Hg; [|rewrite Hg; auto].
  destruct (isJumping g) eqn:Hj; [rewrite Hg; auto|].
  cbn. auto.
Qed.

Lemma moveLeft_refHolds w : refHolds P w -> refHolds P (moveLeft w).
Proof.
  unfold refHolds, moveLeft. destruct (gameRef w) as [g|] eqn:Hg; [|rewrite Hg; auto].
  destruct (0 <? currentLane g)%Z eqn:Hl; [|rewrite Hg; auto].
  cbn. intros Hp. apply P_left; [exact Hp | lia].
Qed.

Lemma moveRight_refHolds w : refHolds P w -> refHolds P (moveRight w).
Proof.
  unfold refHolds, moveRight. destruct (gameRef w) as [g|] eqn:Hg; [|rewrite Hg; auto].
  destruct (currentLane g <? 2)%Z eqn:Hl; [|rewrite Hg; auto].
  cbn. intros Hp. apply P_right; [exact Hp | lia].
Qed.

Lemma startGame_refHolds w : refHolds P (startGame w).
Proof.
  unfold refHolds, startGame, initGame.
  destruct (gameRef w) as [g|] eqn:Hg; cbn.
  - rewrite Hg. cbn. apply P_reset.
  - destruct (container w); cbn; [apply P_reset | rewrite Hg; exact I].
Qed.

Lemma gameLoop_refHolds f w : refHolds P w -> refHolds P (gameLoop f w).
Proof.
  unfold refHolds. destruct (gameRef w) as [g|] eqn:Hg.
  - rewrite (gameLoop_gameRef f w g Hg).
    destruct (isPlaying (gameState w)); auto.
  - unfold gameLoop. rewrite Hg, Hg. auto.
Qed.

Lemma handle_refHolds e w : refHolds P w -> refHolds P (handle e w).
Proof.
  intros Hw. destruct e as [code| | |f]; cbn [handle].
  - unfold handleKeyDown.
    destruct code, (isPlaying (gameState w)), (isGameOver (gameState w)); cbn;
      auto using jump_refHolds, moveLeft_refHolds, moveRight_refHolds, startGame_refHolds.
  - unfold handleClick.
    destruct (isPlaying (gameState w)), (isGameOver (gameState w)); cbn;
      auto using jump_refHolds, startGame_refHolds.
  - rewrite clickButton_cases.
    destruct (isPlaying (gameState w)), (isGameOver (gameState w)); cbn [negb andb orb];
      auto using startGame_refHolds, jump_refHolds.
  - apply gameLoop_refHolds, Hw.
Qed.

Lemma step_refHolds e w : refHolds P w -> refHolds P (step e w).
Proof.
  intros Hw. unfold step, refHolds. rewrite render_gameRef.
  apply (handle_refHolds e w Hw).
Qed.

Lemma run_refHolds es : forall w, refHolds P w -> refHolds P (run es w).
Proof.
  induction es as [|e es IH]; intros w Hw; cbn.
  - exact Hw.
  - apply IH, step_refHolds, Hw.
Qed.

Lemma mount_refHolds c : refHolds P (mount c).
Proof. destruct c; cbn; [exact P_fresh | exact I]. Qed.

Lemma reachable_refHolds c es g : gameRef (run es (mount c)) = Some g -> P g.
Proof.
  intros Hg. pose proof (run_refHolds es _ (mount_refHolds c)) as H.
  unfold refHolds in H. rewrite Hg in H. exact H.
Qed.
End RefInvariant.

(** ** Vertical position *)

Lemma jumpPhysics_grounded g :
  groundLevel <= vy (player g) -> groundLevel <= vy (player (jumpPhysics g)).
Proof.
  intros Hy. unfold jumpPhysics.
  destruct (isJumping g); [|exact Hy].
  destruct (Num.le _ groundLevel) eqn:Hle; cbn [setJump setPlayer setY player vy].
  - apply Qle_refl.
  - apply NumFacts.le_false in Hle. apply Qlt_le_weak, Hle.
Qed.

Lemma jumpPhysics_vx g : vx (player (jumpPhysics g)) = vx (player g).
Proof.
  unfold jumpPhysics. destruct (isJumping g); [|reflexivity].
  destruct (Num.le _ _); reflexivity.
Qed.

(** C4. Along every sequence of events from the mounted component, at the end
    of every frame and after every input event, the player's vertical
    position is at least the ground level 0.6. *)
Theorem verticalPosition_ge_groundLevel (c : bool) (es : list Event) (g : Game) :
  gameRef (run es (mount c)) = Some g -> groundLevel <= vy (player g).
Proof.
  apply (reachable_refHolds (fun g => groundLevel <= vy (player g))).
  - apply Qle_refl.
  - intros g0. apply Qle_refl.
  - intros g0 H _. exact H.
  - intros g0 H _. exact H.
  - intros g0 H _. exact H.
  - intros f g0 q H.
    destruct (tick_kin f g0 q) as [Hp _]. rewrite Hp.
    apply jumpPhysics_grounded, H.
Qed.

Lemma verticalPosition_ge_groundLevel_witness :
  gameRef (run firstJump (mount true)) = Some airborne /\
  groundLevel <= vy (player airborne).
Proof.
  split; [vm_compute; reflexivity|].
  apply (verticalPosition_ge_groundLevel true firstJump airborne).
  vm_compute. reflexivity.
Defined.

(** ** Lanes *)

Lemma laneSnapped_reachable c es : refHolds laneSnapped (run es (mount c)).
Proof.
  apply run_refHolds; [ | | | | | apply mount_refHolds]; unfold laneSnapped.
  - intros g. split; [cbn; lia | reflexivity].
  - intros g H _. exact H.
  - intros g [Hr _] Hl. cbn. split; [lia | reflexivity].
  - intros g [Hr _] Hl. cbn. split; [lia | reflexivity].
  - intros f g q [Hr Hx].
    destruct (tick_kin f g q) as (Hp & _ & _ & _ & Hl).
    rewrite Hp, Hl, jumpPhysics_vx. auto.
  - split; [cbn; lia | reflexivity].
Qed.

Lemma calls_laneSnapped ms : forall w, refHolds laneSnapped w -> refHolds laneSnapped (calls ms w).
Proof.
  induction ms as [|m ms IH]; intros w Hw; cbn; [exact Hw|].
  apply IH. destruct m; cbn [call].
  - apply moveLeft_refHolds; [|exact Hw].
    intros g [Hr _] Hl. unfold laneSnapped. cbn. split; [lia | reflexivity].
  - apply moveRight_refHolds; [|exact Hw].
    intros g [Hr _] Hl. unfold laneSnapped. cbn. split; [lia | reflexivity].
Qed.

(** C8. After any sequence of events, followed by any sequence of
    [moveLeft()] and [moveRight()] calls, the lane index is within [0, 2] and
    the player's horizontal position is the offset [lanes[currentLane]];
    [moveLeft()] at lane 0 and [moveRight()] at lane 2 leave the whole
    component as it is. *)
Theorem lane_in_range_and_snapped (c : bool) (es : list Event) (ms : list LaneCall)
        (w : World) (g : Game) :
  w = calls ms (run es (mount c)) ->
  gameRef w = Some g ->
  (0 <= currentLane g <= 2)%Z /\
  vx (player g) = lanesAt (currentLane g) /\
  (exists x, lanes !! Z.to_nat (currentLane g) = Some x /\ vx (player g) = Some x) /\
  (currentLane g = 0%Z -> moveLeft w = w) /\
  (currentLane g = 2%Z -> moveRight w = w).
Proof.
  intros -> Hg.
  pose proof (calls_laneSnapped ms _ (laneSnapped_reachable c es)) as H.
  unfold refHolds in H. rewrite Hg in H. destruct H as [Hr Hx].
  split; [exact Hr|]. split; [exact Hx|]. split; [|split].
  - rewrite Hx. unfold lanesAt.
    assert (Hc : currentLane g = 0%Z \/ currentLane g = 1%Z \/ currentLane g = 2%Z) by lia.
    destruct Hc as [-> | [-> | ->]]; cbn; eauto.
  - intros H0. unfold moveLeft. rewrite Hg, H0. reflexivity.
  - intros H2. unfold moveRight. rewrite Hg, H2. reflexivity.
Qed.

Lemma lane_in_range_and_snapped_witness :
  gameRef (calls [CallMoveLeft; CallMoveLeft] (run [Button] (mount true))) = Some atLeftWall /\
  (0 <= currentLane atLeftWall <= 2)%Z /\
  vx (player atLeftWall) = lanesAt (currentLane atLeftWall) /\
  (exists x, lanes !! Z.to_nat (currentLane atLeftWall) = Some x /\
             vx (player atLeftWall) = Some x) /\
  (currentLane atLeftWall = 0%Z ->
   moveLeft (calls [CallMoveLeft; CallMoveLeft] (run [Button] (mount true)))
   = calls [CallMoveLeft; CallMoveLeft] (run [Button] (mount true))) /\
  (currentLane atLeftWall = 2%Z ->
   moveRight (calls [CallMoveLeft; CallMoveLeft] (run [Button] (mount true)))
   = calls [CallMoveLeft; CallMoveLeft] (run [Button] (mount true))).
Proof.
  split; [vm_compute; reflexivity|].
  apply (lane_in_range_and_snapped true [Button] [CallMoveLeft; CallMoveLeft]).
  - reflexivity.
  - vm_compute. reflexivity.
Defined.

(** ** Jump *)

(** C9. [jump()] while the jumping flag is set changes nothing at all;
    [jump()] while it is clear sets the vertical velocity to 0.25 and the
    flag, and nothing else. *)
Theorem jump_noop_airborne_impulse_grounded (w : World) (g : Game) :
  gameRef w = Some g ->
  (isJumping g = true -> jump w = w) /\
  (isJumping g = false ->
   gameRef (jump w) =
     Some (mkGame (player g) (obstacles g) (gems g) true (25 # 100)
                  (speed g) (score g) (currentLane g)) /\
   gameState (jump w) = gameState w /\ queue (jump w) = queue w) /\
  jump (jump w) = jump w.
Proof.
  intros Hg.
  assert (Hjump : jump w = if isJumping g then w
                           else setRef (Some (setJump true jumpImpulse g)) w).
  { unfold jump. rewrite Hg. reflexivity. }
  split; [|split].
  - intros Hj. rewrite Hjump, Hj. reflexivity.
  - intros Hj. rewrite Hjump, Hj. cbn. auto.
  - rewrite Hjump. destruct (isJumping g) eqn:Hj.
    + exact Hjump.
    + reflexivity.
Qed.

Lemma jump_noop_airborne_impulse_grounded_witness :
  gameRef (run firstJump (mount true)) = Some airborne /\
  (isJumping airborne = true ->
   jump (run firstJump (mount true)) = run firstJump (mount true)) /\
  (isJumping airborne = false ->
   gameRef (jump (run firstJump (mount true))) =
     Some (mkGame (player airborne) (obstacles airborne) (gems airborne) true
                  (25 # 100) (speed airborne) (score airborne)
                  (currentLane airborne)) /\
   gameState (jump (run firstJump (mount true))) = gameState (run firstJump (mount true)) /\
   queue (jump (run firstJump (mount true))) = queue (run firstJump (mount true))) /\
  jump (jump (run firstJump (mount true))) = jump (run firstJump (mount true)).
Proof.
  split; [vm_compute; reflexivity|].
  apply (jump_noop_airborne_impulse_grounded (run firstJump (mount true)) airborne).
  vm_compute. reflexivity.
Defined.

(** ** Score *)

Lemma tens_0 : tens 0.
Proof. exists 0%Z. lia. Qed.

Lemma tick_tens f g q : tens (score g) -> tens (score (fst (tick f (g, q)))).
Proof.
  intros [k [Hk Hs]]. destruct (tick_score f g q) as [He Hc].
  exists (k + (countScore (snd (tick f (g, q))) - countScore q))%Z. lia.
Qed.

Lemma refScore_tens_reachable c es : refHolds (fun g => tens (score g)) (run es (mount c)).
Proof.
  apply run_refHolds; [ | | | | | apply mount_refHolds]; cbn; auto using tens_0.
  intros f g q. apply tick_tens.
Qed.

Lemma startGame_gameState w : gameState (startGame w) = gameState w.
Proof.
  unfold startGame. cbn [enqueue setRef gameState].
  destruct (gameRef w); [reflexivity|].
  unfold initGame. destruct (container w); reflexivity.
Qed.

Lemma jump_gameState w : gameState (jump w) = gameState w.
Proof. unfold jump. destruct (gameRef w) as [g|]; [destruct (isJumping g)|]; reflexivity. Qed.

Lemma moveLeft_gameState w : gameState (moveLeft w) = gameState w.
Proof.
  unfold moveLeft. destruct (gameRef w) as [g|]; [destruct (0 <? _)%Z|]; reflexivity.
Qed.

Lemma moveRight_gameState w : gameState (moveRight w) = gameState w.
Proof.
  unfold moveRight. destruct (gameRef w) as [g|]; [destruct (_ <? 2)%Z|]; reflexivity.
Qed.

Lemma gameLoop_gameState f w : gameState (gameLoop f w) = gameState w.
Proof.
  unfold gameLoop. destruct (gameRef w) as [g|]; [|reflexivity].
  destruct (isPlaying (gameState w)); cbn [negb]; [|reflexivity].
  destruct (tick f (g, queue w)); reflexivity.
Qed.

(** The handlers only queue updaters: the rendered state changes at the
    next render. *)
Lemma handle_gameState e w : gameState (handle e w) = gameState w.
Proof.
  destruct e as [code| | |f]; cbn [handle].
  - unfold handleKeyDown.
    destruct code, (isPlaying (gameState w)), (isGameOver (gameState w)); cbn [negb andb orb];
      rewrite ?moveLeft_gameState, ?moveRight_gameState, ?jump_gameState,
              ?startGame_gameState; reflexivity.
  - unfold handleClick.
    destruct (isPlaying (gameState w)), (isGameOver (gameState w)); cbn [negb andb orb];
      rewrite ?jump_gameState, ?startGame_gameState; reflexivity.
  - rewrite clickButton_cases.
    destruct (isPlaying (gameState w)), (isGameOver (gameState w)); cbn [negb andb orb];
      rewrite ?jump_gameState, ?startGame_gameState; reflexivity.
  - apply gameLoop_gameState.
Qed.

Lemma applyUpdates_tens r q : forall st,
  tens r -> tens (gsScore st) ->
  tens (gsScore (fold_left (fun st u => applyUpdate r u st) q st)).
Proof.
  induction q as [|u q IH]; intros st Hr Hst; cbn [fold_left]; [exact Hst|].
  apply IH; [exact Hr|]. destruct u; cbn; auto using tens_0.
Qed.

Lemma run_snoc es e w : run (es ++ [e]) w = step e (run es w).
Proof. unfold run. rewrite fold_left_app. reflexivity. Qed.

Lemma refScore_tens c es : tens (refScore (run es (mount c))).
Proof.
  pose proof (refScore_tens_reachable c es) as H.
  unfold refHolds in H. unfold refScore.
  destruct (gameRef (run es (mount c))); [exact H | apply tens_0].
Qed.

Lemma gsScore_tens c es : tens (gsScore (gameState (run es (mount c)))).
Proof.
  induction es as [|e es IH] using rev_ind.
  - destruct c; apply tens_0.
  - rewrite run_snoc. unfold step, render. cbn [gameState].
    apply applyUpdates_tens.
    + pose proof (refScore_tens c (es ++ [e])) as H.
      rewrite run_snoc in H. exact H.
    + rewrite handle_gameState. exact IH.
Qed.

Lemma run_queue c es : queue (run es (mount c)) = [].
Proof.
  destruct es as [|e es] using rev_ind.
  - destruct c; reflexivity.
  - rewrite run_snoc. reflexivity.
Qed.

Lemma gameLoop_refScore f w :
  refScore (gameLoop f w) =
  (refScore w + 10 * (countScore (queue (gameLoop f w)) - countScore (queue w)))%Z.
Proof.
  unfold gameLoop, refScore. destruct (gameRef w) as [g|] eqn:Hg; [|rewrite Hg; lia].
  destruct (isPlaying (gameState w)); cbn [negb]; [|rewrite Hg; lia].
  pose proof (tick_score f g (queue w)) as [H _].
  destruct (tick f (g, queue w)) as [g' q']. cbn in *. exact H.
Qed.

Lemma startGame_refScore w : refScore (startGame w) = 0%Z.
Proof.
  unfold startGame, initGame, refScore. destruct (gameRef w) as [g|] eqn:Hg; cbn.
  - rewrite Hg. reflexivity.
  - destruct (container w); cbn; [reflexivity | rewrite Hg; reflexivity].
Qed.

Lemma jump_refScore w : refScore (jump w) = refScore w /\ queue (jump w) = queue w.
Proof.
  unfold jump, refScore. destruct (gameRef w) as [g|] eqn:Hg; [|rewrite Hg; auto].
  destruct (isJumping g); [rewrite Hg; auto | cbn; auto].
Qed.

Lemma moveLeft_refScore w : refScore (moveLeft w) = refScore w /\ queue (moveLeft w) = queue w.
Proof.
  unfold moveLeft, refScore. destruct (gameRef w) as [g|] eqn:Hg; [|rewrite Hg; auto].
  destruct (0 <? _)%Z; [cbn; auto | rewrite Hg; auto].
Qed.

Lemma moveRight_refScore w : refScore (moveRight w) = refScore w /\ queue (moveRight w) = queue w.
Proof.
  unfold moveRight, refScore. destruct (gameRef w) as [g|] eqn:Hg; [|rewrite Hg; auto].
  destruct (_ <? 2)%Z; [cbn; auto | rewrite Hg; auto].
Qed.

(** What one event does to the score of the ref: a start sets it to 0, and
    otherwise it grows by ten for each score updater queued, that is for
    each gem collected. *)
Lemma handle_refScore e w :
  refScore (handle e w) = 0%Z \/
  refScore (handle e w) =
    (refScore w + 10 * (countScore (queue (handle e w)) - countScore (queue w)))%Z.
Proof.
  destruct e as [code| | |f]; cbn [handle].
  - unfold handleKeyDown.
    destruct code, (isPlaying (gameState w)), (isGameOver (gameState w)); cbn [negb andb orb];
      try (left; apply startGame_refScore);
      right;
      try (destruct (jump_refScore w) as [-> ->]);
      try (destruct (moveLeft_refScore w) as [-> ->]);
      try (destruct (moveRight_refScore w) as [-> ->]); lia.
  - unfold handleClick.
    destruct (isPlaying (gameState w)), (isGameOver (gameState w)); cbn [negb andb orb];
      try (left; apply startGame_refScore);
      right; try (destruct (jump_refScore w) as [-> ->]); lia.
  - rewrite clickButton_cases.
    destruct (isPlaying (gameState w)), (isGameOver (gameState w)); cbn [negb andb orb];
      try (left; apply startGame_refScore);
      try (left; destruct (jump_refScore (startGame w)) as [-> _];
           apply startGame_refScore);
      right; lia.
  - right. apply gameLoop_refScore.
Qed.


(** ** Scroll speed *)

Lemma startGame_speed w g' : gameRef (startGame w) = Some g' -> speed g' = baseSpeed.
Proof.
  unfold startGame. cbn [enqueue setRef gameRef].
  destruct (gameRef _) as [g0|]; cbn; [|discriminate].
  intros [= <-]. reflexivity.
Qed.

Lemma render_noUpdates w : queue w = [] -> gameState (render w) = gameState w.
Proof. intros Hq. unfold render. rewrite Hq. reflexivity. Qed.

Lemma jump_speed w g :
  gameRef w = Some g -> exists g', gameRef (jump w) = Some g' /\ speed g' = speed g.
Proof.
  intros Hg. unfold jump. rewrite Hg. destruct (isJumping g); cbn; eauto.
Qed.

Lemma moveLeft_speed w g :
  gameRef w = Some g -> exists g', gameRef (moveLeft w) = Some g' /\ speed g' = speed g.
Proof.
  intros Hg. unfold moveLeft. rewrite Hg. destruct (0 <? _)%Z; cbn; eauto.
Qed.

Lemma moveRight_speed w g :
  gameRef w = Some g -> exists g', gameRef (moveRight w) = Some g' /\ speed g' = speed g.
Proof.
  intros Hg. unfold moveRight. rewrite Hg. destruct (_ <? 2)%Z; cbn; eauto.
Qed.

Lemma gameLoop_speed f w g :
  gameRef w = Some g -> isPlaying (gameState w) = true ->
  exists g', gameRef (gameLoop f w) = Some g' /\
             speed g' = Num.add (speed g) speedIncrement.
Proof.
  intros Hg Hp. rewrite (gameLoop_gameRef f w g Hg), Hp.
  eexists. split; [reflexivity|]. apply tick_kin.
Qed.

Lemma speed_step_up s : s < Num.add s speedIncrement.
Proof.
  rewrite NumFacts.add_eq. unfold speedIncrement.
  rewrite <- (Qplus_0_r s) at 1. apply Qplus_lt_r. reflexivity.
Qed.


(** ** The collision and collection tests, on the entity a callback visits *)

Lemma absDiffLt_spec a b bound :
  Num.absDiffLt a b bound = true <->
  exists x y, a = Some x /\ b = Some y /\ Qabs (x - y) < bound.
Proof.
  unfold Num.absDiffLt. destruct a as [x|], b as [y|].
  - rewrite NumFacts.lt_spec, NumFacts.sub_eq. split.
    + intros H. exists x, y. auto.
    + intros (x' & y' & [= <-] & [= <-] & H). exact H.
  - split; [discriminate | intros (x' & y' & _ & [=] & _)].
  - split; [discriminate | intros (x' & y' & [=] & _)].
  - split; [discriminate | intros (x' & y' & [=] & _)].
Qed.

(** The three strict comparisons of [// Collision detection]. *)
Lemma hits_spec p o :
  hits p o = true <->
  (exists ox px, vx (opos o) = Some ox /\ vx p = Some px /\ Qabs (ox - px) < 1) /\
  Qabs (vz (opos o) - vz p) < 1 /\
  vy p < oheight o + (3 # 10).
Proof.
  unfold hits. rewrite !andb_true_iff, !absDiffLt_spec, NumFacts.lt_spec, NumFacts.add_eq.
  split.
  - intros [[Hx (z & z' & [= <-] & [= <-] & Hz)] Hy]. auto.
  - intros (Hx & Hz & Hy). repeat split; eauto.
Qed.

(** The three strict comparisons of [// Gem collection]. *)
Lemma collects_spec p gem :
  collects p gem = true <->
  (exists gx px, vx (gpos gem) = Some gx /\ vx p = Some px /\ Qabs (gx - px) < 1) /\
  Qabs (vz (gpos gem) - vz p) < 1 /\
  Qabs (vy (gpos gem) - vy p) < 15 # 10.
Proof.
  unfold collects. rewrite !andb_true_iff, !absDiffLt_spec.
  split.
  - intros [[Hx (z & z' & [= <-] & [= <-] & Hz)] (y & y' & [= <-] & [= <-] & Hy)]. auto.
  - intros (Hx & Hz & Hy). repeat split; eauto.
Qed.

(** A visited obstacle queues the game-over updater exactly when it meets
    the test after its move; a hit obstacle stays in the array. *)
Lemma obstacleStep_queue sp o k g q :
  snd (obstacleStep sp o k (g, q)) =
  if hits (player g) (moveObstacle sp o) then q ++ [UGameOver] else q.
Proof.
  unfold obstacleStep. cbn [setObstacles player].
  destruct (hits _ _); [reflexivity|]. destruct (Num.gt _ _); reflexivity.
Qed.

(** The game-over updater, whatever score it reads. *)
Lemma applyUpdate_gameOver s prev :
  applyUpdate s UGameOver prev =
  mkGameState (gsScore prev) false true (Z.max (highScore prev) s).
Proof. reflexivity. Qed.

(** A visited gem is collected exactly when it meets the test after its
    move: the score grows by 10 and one score updater is queued. *)
Lemma gemStep_score sp gem k g q :
  let m' := gemStep sp gem k (g, q) in
  if collects (player g) (moveGem sp gem)
  then score (fst m') = (score g + 10)%Z /\ snd m' = q ++ [UScore]
  else score (fst m') = score g /\ snd m' = q.
Proof.
  cbv zeta. unfold gemStep. cbn [setGems player].
  destruct (collects _ _); destruct (Num.gt _ _); cbn; auto.
Qed.

(** A visited obstacle past depth 10 is spliced out at its own index. *)
Lemma obstacleStep_prune sp o k g q :
  obstacles g !! k = Some o ->
  hits (player g) (moveObstacle sp o) = false ->
  Num.gt (vz (opos (moveObstacle sp o))) passThreshold = true ->
  obstacles (fst (obstacleStep sp o k (g, q))) = delete k (obstacles g).
Proof.
  intros Hk Hh Hz. unfold obstacleStep. cbn [setObstacles player obstacles].
  rewrite Hh, Hz. cbn [fst setObstacles obstacles]. unfold splice1.
  apply list_eq. intros i.
  destruct (decide (i < k)%nat) as [Hlt|Hge].
  - rewrite !list_lookup_delete_lt by exact Hlt.
    apply list_lookup_insert_ne. lia.
  - rewrite !list_lookup_delete_ge by lia.
    apply list_lookup_insert_ne. lia.
Qed.

(** When the first obstacle of the array is spliced out, the loop goes on
    at index 1 of the shortened array: the obstacle that took index 0 is not
    visited in this frame. *)
Lemma prune_skips_next sp g q a b rest :
  obstacles g = a :: b :: rest ->
  hits (player g) (moveObstacle sp a) = false ->
  Num.gt (vz (opos (moveObstacle sp a))) passThreshold = true ->
  forEach (fun m => obstacles (fst m)) (obstacleStep sp) (g, q) =
  forEachFrom (fun m => obstacles (fst m)) (obstacleStep sp) 1 (S (length rest))
              (setObstacles (b :: rest) g, q).
Proof.
  intros Hl Hh Hz. unfold forEach. cbn [fst]. rewrite Hl.
  change (length (a :: b :: rest)) with (S (S (length rest))).
  etransitivity; [apply forEachFrom_S|]. f_equal.
  cbn [fst]. rewrite Hl. change ((a :: b :: rest) !! 0%nat) with (Some a).
  unfold obstacleStep. cbn [setObstacles player]. rewrite Hh, Hz.
  cbn [obstacles]. rewrite Hl. reflexivity.
Qed.

(** What [startGame] does reset, when there is a ref or a container to make
    one: the score, the speed, the two arrays, the lane and the position. *)
Lemma startGame_resets w :
  (gameRef w <> None \/ container w = true) ->
  exists g', gameRef (startGame w) = Some g' /\
    score g' = 0%Z /\ speed g' = baseSpeed /\ obstacles g' = [] /\ gems g' = [] /\
    currentLane g' = 1%Z /\ player g' = mkVec3 (Some 0) groundLevel playerDepth.
Proof.
  intros H. unfold startGame, initGame. cbn [enqueue setRef gameRef].
  destruct (gameRef w) as [g|] eqn:Hg.
  - rewrite Hg. eexists. split; [reflexivity|]. cbn. auto 10.
  - destruct H as [H|H]; [congruence|]. rewrite H. cbn.
    eexists. split; [reflexivity|]. cbn. auto 10.
Qed.

(** The rendered state after a start: score 0, Playing, high score kept. *)
Lemma startGame_render w :
  queue w = [] ->
  gameState (render (startGame w)) = mkGameState 0 true false (highScore (gameState w)).
Proof.
  intros Hq. unfold render, startGame. cbn [enqueue queue gameState setRef].
  assert (Hq1 : queue (match gameRef w with Some _ => w | None => initGame w end) = [])
    by (unfold initGame; destruct (gameRef w), (container w); exact Hq).
  assert (Hs1 : gameState (match gameRef w with Some _ => w | None => initGame w end)
                = gameState w)
    by (unfold initGame; destruct (gameRef w), (container w); reflexivity).
  rewrite Hq1, Hs1. reflexivity.
Qed.

(** ** Where the code departs from its specification *)

(** C1. An obstacle within reach of the player is not detected in a frame
    whose iteration passes over it: in the state reached by
    [pruneBeforeHit] the second obstacle meets the three conditions, both at
    its depth and at its depth after the move, and the frame queues no
    update and leaves the phase Playing. *)
Theorem obstacle_in_reach_not_detected :
  run pruneBeforeHit (mount true) = pruneBeforeHitWorld /\
  hits (player pruneBeforeHitGame) inReach = true /\
  hits (player pruneBeforeHitGame) (moveObstacle (speed pruneBeforeHitGame) inReach) = true /\
  queue (gameLoop quietFrame pruneBeforeHitWorld) = [] /\
  gameState (step (AnimationFrame quietFrame) pruneBeforeHitWorld) = playing.
Proof. repeat split; vm_compute; reflexivity. Qed.

(** C2. Removing a passed obstacle makes the iteration pass over the next
    one: in the state reached by [pruneBeforeHit] the frame splices the
    first obstacle out and leaves the second one where it was, neither
    moved nor tested; the frame after that moves and tests it. *)
Theorem removal_skips_next_obstacle :
  run pruneBeforeHit (mount true) = pruneBeforeHitWorld /\
  Num.gt (vz (opos (moveObstacle (speed pruneBeforeHitGame) passing))) passThreshold = true /\
  (obstacles <$> gameRef (gameLoop quietFrame pruneBeforeHitWorld)) = Some [inReach] /\
  (obstacles <$> gameRef (gameLoop quietFrame (step (AnimationFrame quietFrame) pruneBeforeHitWorld)))
  = Some [moveObstacle (1957 # 12500) inReach] /\
  queue (gameLoop quietFrame (step (AnimationFrame quietFrame) pruneBeforeHitWorld)) = [UGameOver].
Proof. repeat split; vm_compute; reflexivity. Qed.

(** C3. Of two gems that meet the collection conditions in the same frame,
    only the first is collected when they are neighbours in the array: the
    score grows by 10, not 20, and the second gem stays in the array. *)
Theorem second_gem_not_collected :
  run twoGems (mount true) = twoGemsWorld /\
  collects (player twoGemsGame) (moveGem (speed twoGemsGame) (bobGem quietFrame 0 firstGem)) = true /\
  collects (player twoGemsGame) (moveGem (speed twoGemsGame) (bobGem quietFrame 1 secondGem)) = true /\
  gameRef (gameLoop quietFrame twoGemsWorld) =
    Some (mkGame standing [] [bobGem quietFrame 1 secondGem] false 0 (7793 # 50000) 10%Z 1%Z) /\
  queue (gameLoop quietFrame twoGemsWorld) = [UScore].
Proof. repeat split; vm_compute; reflexivity. Qed.

(** C5. A restart after a hit in mid-jump leaves the jumping flag set and
    the vertical velocity at its value of the moment of the hit: the player
    of the new run stands on the ground, flagged as jumping, and rises in the
    first frame without any jump input. *)
Theorem restart_keeps_jump_state :
  run hitWhileRising (mount true) = hitWhileRisingWorld /\
  step Button hitWhileRisingWorld = mkWorld (Some restartedGame) playing [] true /\
  isJumping restartedGame = true /\
  jumpVelocity restartedGame = 47 # 200 /\
  (player <$> gameRef (step (AnimationFrame quietFrame) (step Button hitWhileRisingWorld)))
  = Some (mkVec3 (Some 0) (167 # 200) playerDepth).
Proof. repeat split; vm_compute; reflexivity. Qed.

(** C6. With two obstacles within reach in the same frame, the game-over
    update is queued twice in that frame: [return] leaves the callback of
    the first obstacle only, and the iteration goes on to the second. *)
Theorem gameOver_reported_twice :
  run twoInReach (mount true) = twoInReachWorld /\
  queue (gameLoop quietFrame twoInReachWorld) = [UGameOver; UGameOver] /\
  gameState (step (AnimationFrame quietFrame) twoInReachWorld) = lost.
Proof. repeat split; vm_compute; reflexivity. Qed.

(** * Further properties of the component *)

(** ** The rendered state *)

Lemma step_gameState e w :
  gameState (step e w) =
  fold_left (fun st u => applyUpdate (refScore (handle e w)) u st)
            (queue (handle e w)) (gameState w).
Proof. unfold step, render. cbn [gameState]. rewrite handle_gameState. reflexivity. Qed.

Lemma applyUpdates_inv (P : GameState -> Prop) :
  (forall r u st, P st -> P (applyUpdate r u st)) ->
  forall r q st, P st -> P (fold_left (fun st u => applyUpdate r u st) q st).
Proof.
  intros HP r q. induction q as [|u q IH]; intros st Hst; cbn [fold_left]; auto.
Qed.

(** X1. No sequence of events, from any state of the component, lowers the
    high score. *)
Theorem highScore_never_decreases (es : list Event) (w : World) :
  (highScore (gameState w) <= highScore (gameState (run es w)))%Z.
Proof.
  revert w. induction es as [|e es IH]; intros w; cbn [run fold_left]; [lia|].
  etransitivity; [|apply IH].
  rewrite step_gameState.
  apply (applyUpdates_inv (fun st => (highScore (gameState w) <= highScore st)%Z)); [|lia].
  intros r u st Hst. destruct u; cbn; lia.
Qed.

Lemma phase_flags_reachable c es :
  isPlaying (gameState (run es (mount c))) && isGameOver (gameState (run es (mount c))) = false.
Proof.
  induction es as [|e es IH] using rev_ind.
  - destruct c; reflexivity.
  - rewrite run_snoc, step_gameState.
    apply (applyUpdates_inv (fun st => isPlaying st && isGameOver st = false)); [|exact IH].
    intros r u st Hst. destruct u; cbn; auto.
Qed.

(** X2. In every reachable state the flags [isPlaying] and [isGameOver] are
    not both set, so that exactly one of the start screen, the game-over
    screen and the controls hint is rendered. *)
Theorem exactly_one_overlay (c : bool) (es : list Event) :
  let st := gameState (run es (mount c)) in
  isPlaying st && isGameOver st = false /\
  ((showStartScreen st = true /\ showGameOverScreen st = false /\ showControlsHint st = false) \/
   (showStartScreen st = false /\ showGameOverScreen st = true /\ showControlsHint st = false) \/
   (showStartScreen st = false /\ showGameOverScreen st = false /\ showControlsHint st = true)).
Proof.
  cbv zeta. pose proof (phase_flags_reachable c es) as H. split; [exact H|].
  unfold showStartScreen, showGameOverScreen, showControlsHint.
  destruct (isPlaying _), (isGameOver _); cbn in *; auto; discriminate.
Qed.

(** ** The ref and the container *)

Lemma startGame_None w :
  gameRef w = None -> container w = false ->
  gameRef (startGame w) = None /\ container (startGame w) = false /\
  queue (startGame w) = queue w ++ [UStart].
Proof.
  intros Hg Hc. unfold startGame, initGame. rewrite Hg, Hc. cbn. rewrite Hg. auto.
Qed.

Lemma handle_gameRef_None e w :
  gameRef w = None -> container w = false ->
  gameRef (handle e w) = None /\ container (handle e w) = false /\
  (queue w = [] ->
   queue (handle e w) = [] \/ queue (handle e w) = [UStart] \/
   queue (handle e w) = [UStart; UStart]).
Proof.
  intros Hg Hc.
  assert (Hj : forall w', gameRef w' = None -> jump w' = w')
    by (intros w' Hg'; unfold jump; rewrite Hg'; reflexivity).
  assert (Hl : moveLeft w = w) by (unfold moveLeft; rewrite Hg; reflexivity).
  assert (Hr : moveRight w = w) by (unfold moveRight; rewrite Hg; reflexivity).
  assert (Hf : forall f, gameLoop f w = w) by (intros f; unfold gameLoop; rewrite Hg; reflexivity).
  destruct (startGame_None w Hg Hc) as (Hs1 & Hs2 & Hs3).
  destruct (startGame_None (startGame w) Hs1 Hs2) as (Ht1 & Ht2 & Ht3).
  rewrite Hs3 in Ht3.
  assert (Hs4 : queue w = [] -> queue (startGame w) = [UStart])
    by (intros Hq; rewrite Hs3, Hq; reflexivity).
  assert (Ht4 : queue w = [] -> queue (startGame (startGame w)) = [UStart; UStart])
    by (intros Hq; rewrite Ht3, Hq; reflexivity).
  destruct e as [code| | |f]; cbn [handle].
  - unfold handleKeyDown.
    destruct code, (isPlaying (gameState w)), (isGameOver (gameState w)); cbn [negb andb orb];
      rewrite ?(Hj w Hg), ?Hl, ?Hr; repeat split; auto 7.
  - unfold handleClick.
    destruct (isPlaying (gameState w)), (isGameOver (gameState w)); cbn [negb andb orb];
      rewrite ?(Hj w Hg); repeat split; auto 7.
  - rewrite clickButton_cases.
    destruct (isPlaying (gameState w)), (isGameOver (gameState w)); cbn [negb andb orb];
      rewrite ?(Hj (startGame w) Hs1); repeat split; auto 7.
  - rewrite Hf. repeat split; auto 7.
Qed.

Lemma no_container_reachable es :
  let w := run es (mount false) in
  gameRef w = None /\ container w = false /\ queue w = [] /\
  gsScore (gameState w) = 0%Z /\ highScore (gameState w) = 0%Z.
Proof.
  induction es as [|e es IH] using rev_ind; cbv zeta in *.
  - repeat split.
  - rewrite run_snoc. destruct IH as (Hg & Hc & Hq & Hs & Hh).
    destruct (handle_gameRef_None e _ Hg Hc) as (Hg' & Hc' & Hq').
    unfold step. rewrite render_gameRef. split; [exact Hg'|]. split; [exact Hc'|].
    split; [reflexivity|].
    unfold render. cbn [gameState]. rewrite handle_gameState.
    destruct (Hq' Hq) as [-> | [-> | ->]]; cbn; auto.
Qed.

Lemma container_reachable es : exists g, gameRef (run es (mount true)) = Some g.
Proof.
  assert (Hsome : forall e w, is_Some (gameRef w) -> is_Some (gameRef (step e w))).
  { intros e w [g Hg]. unfold step. rewrite render_gameRef.
    assert (Hj : forall w', is_Some (gameRef w') -> is_Some (gameRef (jump w')))
      by (intros w' [g' Hg']; unfold jump; rewrite Hg'; destruct (isJumping g'); cbn; eauto).
    assert (Hl : is_Some (gameRef (moveLeft w)))
      by (unfold moveLeft; rewrite Hg; destruct (0 <? _)%Z; cbn; eauto).
    assert (Hr : is_Some (gameRef (moveRight w)))
      by (unfold moveRight; rewrite Hg; destruct (_ <? 2)%Z; cbn; eauto).
    assert (Hs : forall w', is_Some (gameRef w') -> is_Some (gameRef (startGame w')))
      by (intros w' [g' Hg']; unfold startGame; rewrite Hg'; cbn; rewrite Hg'; cbn; eauto).
    assert (Hw : is_Some (gameRef w)) by eauto.
    assert (Hf : forall f, is_Some (gameRef (gameLoop f w)))
      by (intros f; rewrite (gameLoop_gameRef f w g Hg); eauto).
    destruct e as [code| | |f]; cbn [handle]; auto.
    - unfold handleKeyDown.
      destruct code, (isPlaying (gameState w)), (isGameOver (gameState w)); cbn [negb andb orb];
        eauto.
    - unfold handleClick.
      destruct (isPlaying (gameState w)), (isGameOver (gameState w)); cbn [negb andb orb]; eauto.
    - rewrite clickButton_cases.
      destruct (isPlaying (gameState w)), (isGameOver (gameState w)); cbn [negb andb orb]; eauto. }
  induction es as [|e es IH] using rev_ind.
  - cbn. eauto.
  - rewrite run_snoc. apply Hsome. exact IH.
Qed.

(** X3. Whether there is a game is settled at mounting.  With a container
    the ref is set in every reachable state, so that the non-null reads
    [gameRef.current!] of the updaters cannot fail; without one the ref
    stays null whatever the events, also after a start, and the score and
    the high score stay 0. *)
Theorem ref_exists_iff_container (es : list Event) :
  (exists g, gameRef (run es (mount true)) = Some g) /\
  gameRef (run es (mount false)) = None /\
  gsScore (gameState (run es (mount false))) = 0%Z /\
  highScore (gameState (run es (mount false))) = 0%Z.
Proof.
  split; [apply container_reachable|].
  destruct (no_container_reachable es) as (Hg & _ & _ & Hs & Hh). auto.
Qed.

(** ** What a frame commits to the rendered state *)

Lemma obstacleStep_noStart sp o k m :
  forallb (fun u => negb (isStartUpdate u)) (snd m) = true ->
  forallb (fun u => negb (isStartUpdate u)) (snd (obstacleStep sp o k m)) = true.
Proof.
  destruct m as [g q]. rewrite obstacleStep_queue. cbn [snd]. intros Hq.
  destruct (hits _ _); [|exact Hq].
  rewrite forallb_app, Hq. reflexivity.
Qed.

Lemma gemStep_noStart sp gem k m :
  forallb (fun u => negb (isStartUpdate u)) (snd m) = true ->
  forallb (fun u => negb (isStartUpdate u)) (snd (gemStep sp gem k m)) = true.
Proof.
  destruct m as [g q]. cbn [snd]. intros Hq.
  pose proof (gemStep_score sp gem k g q) as H. cbv zeta in H.
  destruct (collects _ _); destruct H as [_ ->]; [|exact Hq].
  rewrite forallb_app, Hq. reflexivity.
Qed.

(** A frame queues game-over and score updaters only. *)
Lemma tick_noStart f g :
  forallb (fun u => negb (isStartUpdate u)) (snd (tick f (g, []))) = true.
Proof.
  unfold tick.
  set (g1 := bobGems f (jumpPhysics g)). set (sp := speed g1).
  assert (H : forallb (fun u => negb (isStartUpdate u))
                (snd (forEach (fun m => gems (fst m)) (gemStep sp)
                        (forEach (fun m => obstacles (fst m)) (obstacleStep sp) (g1, []))))
              = true).
  { apply (forEach_preserves _ _
             (fun m => forallb (fun u => negb (isStartUpdate u)) (snd m) = true)).
    { intros a k s. apply gemStep_noStart. }
    apply (forEach_preserves _ _
             (fun m => forallb (fun u => negb (isStartUpdate u)) (snd m) = true)).
    { intros a k s. apply obstacleStep_noStart. }
    reflexivity. }
  destruct (forEach (fun m => gems (fst m)) _ _) as [g3 q3]. exact H.
Qed.

(** The render of a queue without start updater. *)
Lemma applyUpdates_noStart r q : forall st,
  forallb (fun u => negb (isStartUpdate u)) q = true ->
  fold_left (fun st u => applyUpdate r u st) q st =
  mkGameState (if existsb isScoreUpdate q then r else gsScore st)
              (if existsb isGameOverUpdate q then false else isPlaying st)
              (if existsb isGameOverUpdate q then true else isGameOver st)
              (if existsb isGameOverUpdate q then Z.max (highScore st) r else highScore st).
Proof.
  induction q as [|u q IH]; intros st Hq; cbn [fold_left existsb].
  - destruct st; reflexivity.
  - cbn [forallb] in Hq. apply andb_true_iff in Hq as [Hu Hq].
    rewrite (IH _ Hq). destruct u; [discriminate| |]; cbn;
      destruct (existsb isScoreUpdate q), (existsb isGameOverUpdate q); cbn;
      f_equal; lia.
Qed.

Lemma countScore_0 q : existsb isScoreUpdate q = false -> countScore q = 0%Z.
Proof.
  unfold countScore. induction q as [|u q IH]; cbn; [reflexivity|].
  destruct (isScoreUpdate u); cbn; [discriminate|]. exact IH.
Qed.

Lemma startGame_queue w : queue (startGame w) = queue w ++ [UStart].
Proof.
  unfold startGame, initGame. cbn [enqueue queue setRef].
  destruct (gameRef w); [|destruct (container w)]; reflexivity.
Qed.

(** What an event does to a component with nothing queued: it leaves the
    rendered state and the score alone, or it is a start, or it is a frame
    of a run. *)
Lemma handle_cases e w :
  queue w = [] ->
  (queue (handle e w) = [] /\ refScore (handle e w) = refScore w) \/
  ((queue (handle e w) = [UStart] \/ queue (handle e w) = [UStart; UStart]) /\
   refScore (handle e w) = 0%Z) \/
  (exists f g, e = AnimationFrame f /\ gameRef w = Some g /\
               isPlaying (gameState w) = true /\
               gameRef (handle e w) = Some (fst (tick f (g, []))) /\
               queue (handle e w) = snd (tick f (g, []))).
Proof.
  intros Hq.
  assert (Hj : queue (jump w) = [] /\ refScore (jump w) = refScore w)
    by (destruct (jump_refScore w) as [-> ->]; auto).
  assert (Hl : queue (moveLeft w) = [] /\ refScore (moveLeft w) = refScore w)
    by (destruct (moveLeft_refScore w) as [-> ->]; auto).
  assert (Hr : queue (moveRight w) = [] /\ refScore (moveRight w) = refScore w)
    by (destruct (moveRight_refScore w) as [-> ->]; auto).
  assert (Hs : (queue (startGame w) = [UStart] \/ queue (startGame w) = [UStart; UStart])
               /\ refScore (startGame w) = 0%Z).
  { split; [|apply startGame_refScore]. left. rewrite startGame_queue, Hq. reflexivity. }
  assert (Hss : (queue (startGame (startGame w)) = [UStart]
                 \/ queue (startGame (startGame w)) = [UStart; UStart])
                /\ refScore (startGame (startGame w)) = 0%Z).
  { split; [|apply startGame_refScore]. right. rewrite !startGame_queue, Hq. reflexivity. }
  assert (Hjs : (queue (jump (startGame w)) = [UStart]
                 \/ queue (jump (startGame w)) = [UStart; UStart])
                /\ refScore (jump (startGame w)) = 0%Z).
  { destruct (jump_refScore (startGame w)) as [-> ->]. exact Hs. }
  destruct e as [code| | |f]; cbn [handle].
  - unfold handleKeyDown.
    destruct code, (isPlaying (gameState w)), (isGameOver (gameState w)); cbn [negb andb orb];
      auto.
  - unfold handleClick.
    destruct (isPlaying (gameState w)), (isGameOver (gameState w)); cbn [negb andb orb]; auto.
  - rewrite clickButton_cases.
    destruct (isPlaying (gameState w)), (isGameOver (gameState w)); cbn [negb andb orb]; auto.
  - unfold gameLoop. destruct (gameRef w) as [g|] eqn:Hg; [|auto].
    destruct (isPlaying (gameState w)) eqn:Hp; cbn [negb]; [|auto].
    right. right. exists f, g. rewrite Hq.
    destruct (tick f (g, [])) as [g' q']. cbn. auto.
Qed.

Lemma render_noUpdates_world w : queue w = [] -> render w = w.
Proof. intros Hq. destruct w as [r st q c]. cbn in Hq. subst q. reflexivity. Qed.

Lemma step_synced e w : synced w -> synced (step e w).
Proof.
  intros (Hq & Hs & Hf & Hh). unfold synced.
  split; [reflexivity|].
  change (refScore (step e w)) with (refScore (handle e w)).
  rewrite step_gameState.
  destruct (handle_cases e w Hq)
    as [[Hq' Hr] | [[[Hq' | Hq'] Hr] | (f & g & -> & Hg & Hp & Hg' & Hq')]].
  - rewrite Hq', Hr. cbn [fold_left]. auto.
  - rewrite Hq', Hr. cbn. repeat split; auto. discriminate.
  - rewrite Hq', Hr. cbn. repeat split; auto. discriminate.
  - rewrite Hq', (applyUpdates_noStart _ _ _ (tick_noStart f g)).
    cbn [gsScore isPlaying isGameOver highScore].
    assert (Hr : refScore (handle (AnimationFrame f) w)
                 = (refScore w + 10 * countScore (snd (tick f (g, []))))%Z).
    { unfold refScore at 1 2. rewrite Hg', Hg.
      destruct (tick_score f g []) as [-> _]. change (countScore []) with 0%Z. lia. }
    assert (Hsc : (if existsb isScoreUpdate (snd (tick f (g, [])))
                   then refScore (handle (AnimationFrame f) w)
                   else gsScore (gameState w)) = refScore (handle (AnimationFrame f) w)).
    { destruct (existsb isScoreUpdate _) eqn:He; [reflexivity|].
      rewrite Hr, (countScore_0 _ He), Hs. lia. }
    rewrite Hsc. split; [reflexivity|].
    destruct (existsb isGameOverUpdate _).
    + split; [reflexivity|]. intros _. lia.
    + split; [exact Hf|]. intros Hp'. congruence.
Qed.

Lemma synced_reachable c es : synced (run es (mount c)).
Proof.
  induction es as [|e es IH] using rev_ind.
  - destruct c; repeat split; cbn; lia.
  - rewrite run_snoc. apply step_synced, IH.
Qed.

(** X4. In every reachable state the rendered score is the score held by
    the ref (0 where there is no ref). *)
Theorem rendered_score_is_ref_score (c : bool) (es : list Event) :
  gsScore (gameState (run es (mount c))) = refScore (run es (mount c)).
Proof. apply synced_reachable. Qed.

(** X5. A frame of a run, from a reachable state: if it queues a game-over
    update, the rendered state becomes GameOver with the score of the ref
    after the frame and the high score the larger of the old one and that
    score; if it queues none, the phase and the high score stay and the
    rendered score follows the ref. *)
Theorem frame_commit (c : bool) (es : list Event) (f : Frame) (g : Game) :
  let w := run es (mount c) in
  gameRef w = Some g ->
  isPlaying (gameState w) = true ->
  let g' := fst (tick f (g, [])) in
  gameRef (step (AnimationFrame f) w) = Some g' /\
  gameState (step (AnimationFrame f) w) =
    if existsb isGameOverUpdate (snd (tick f (g, [])))
    then mkGameState (score g') false true (Z.max (highScore (gameState w)) (score g'))
    else mkGameState (score g') true false (highScore (gameState w)).
Proof.
  cbv zeta. intros Hg Hp.
  pose proof (synced_reachable c es) as Hsync.
  pose proof (step_synced (AnimationFrame f) _ Hsync) as (_ & Hs' & _).
  destruct Hsync as (Hq & Hs & Hf & _).
  assert (Hg' : gameRef (step (AnimationFrame f) (run es (mount c)))
                = Some (fst (tick f (g, [])))).
  { unfold step. rewrite render_gameRef. cbn [handle].
    rewrite (gameLoop_gameRef f _ g Hg), Hp, Hq. reflexivity. }
  split; [exact Hg'|].
  unfold refScore in Hs'. rewrite Hg' in Hs'.
  rewrite step_gameState in *. cbn [handle] in *.
  assert (Hq' : queue (gameLoop f (run es (mount c))) = snd (tick f (g, []))).
  { unfold gameLoop. rewrite Hg, Hp, Hq. cbn [negb].
    destruct (tick f (g, [])); reflexivity. }
  rewrite Hq' in *.
  rewrite (applyUpdates_noStart _ _ _ (tick_noStart f g)) in *.
  cbn [gsScore] in Hs'. rewrite Hs'.
  rewrite Hp in *. cbn [andb] in Hf. rewrite Hf.
  assert (Hr : refScore (gameLoop f (run es (mount c))) = score (fst (tick f (g, [])))).
  { unfold refScore. rewrite (gameLoop_gameRef f _ g Hg), Hp, Hq. reflexivity. }
  rewrite Hr. destruct (existsb isGameOverUpdate _); reflexivity.
Qed.

Lemma frame_commit_witness :
  gameRef (run twoInReach (mount true)) = Some twoInReachGame /\
  isPlaying (gameState (run twoInReach (mount true))) = true /\
  gameRef (step (AnimationFrame quietFrame) (run twoInReach (mount true)))
  = Some (fst (tick quietFrame (twoInReachGame, []))) /\
  gameState (step (AnimationFrame quietFrame) (run twoInReach (mount true))) =
    if existsb isGameOverUpdate (snd (tick quietFrame (twoInReachGame, [])))
    then mkGameState (score (fst (tick quietFrame (twoInReachGame, [])))) false true
           (Z.max (highScore (gameState (run twoInReach (mount true))))
                  (score (fst (tick quietFrame (twoInReachGame, [])))))
    else mkGameState (score (fst (tick quietFrame (twoInReachGame, [])))) true false
           (highScore (gameState (run twoInReach (mount true)))).
Proof.
  split; [vm_compute; reflexivity|]. split; [vm_compute; reflexivity|].
  apply (frame_commit true twoInReach quietFrame twoInReachGame); vm_compute; reflexivity.
Defined.

(** X6. Outside a run the rendered score never exceeds the high score, so on
    the game-over screen the [New High Score!] line is shown exactly when the
    final score is positive and equal to the high score; a final score that
    only ties the earlier high score shows it too. *)
Theorem newHighScore_line (c : bool) (es : list Event) :
  let st := gameState (run es (mount c)) in
  (isPlaying st = false -> (gsScore st <= highScore st)%Z) /\
  (showNewHighScore st = true <->
   isGameOver st = true /\ gsScore st = highScore st /\ (0 < gsScore st)%Z).
Proof.
  cbv zeta. destruct (synced_reachable c es) as (_ & _ & Hf & Hh).
  split; [exact Hh|].
  unfold showNewHighScore. rewrite !andb_true_iff, Z.leb_le, Z.ltb_lt.
  split.
  - intros (Hgo & Hle & Hpos). rewrite Hgo in Hf.
    rewrite andb_true_r in Hf. specialize (Hh Hf). repeat split; auto; lia.
  - intros (Hgo & Heq & Hpos). repeat split; auto; lia.
Qed.

(** ** Inputs and phases *)

(** X7. Outside a run, with nothing queued, an animation frame and the keys
    other than Space leave the whole component as it is; on the game-over
    screen a click on the window does so too, while Space and the button
    restart. *)
Theorem inputs_ignored_outside_run (w : World) :
  queue w = [] ->
  isPlaying (gameState w) = false ->
  (forall f, step (AnimationFrame f) w = w) /\
  (forall code, code <> Space -> step (KeyDown code) w = w) /\
  (isGameOver (gameState w) = true ->
   step Click w = w /\
   step (KeyDown Space) w = render (startGame w) /\
   step Button w = render (startGame w)).
Proof.
  intros Hq Hp. split; [|split].
  - intros f. unfold step. cbn [handle]. unfold gameLoop. rewrite Hp. cbn [negb].
    destruct (gameRef w); apply render_noUpdates_world, Hq.
  - intros code Hc. unfold step. cbn [handle]. unfold handleKeyDown. rewrite Hp.
    destruct code; try congruence; apply render_noUpdates_world, Hq.
  - intros Hgo. unfold step. cbn [handle]. rewrite clickButton_cases.
    unfold handleClick, handleKeyDown. rewrite Hp, Hgo. cbn [negb andb orb].
    split; [apply render_noUpdates_world, Hq | split; reflexivity].
Qed.

Lemma inputs_ignored_outside_run_witness :
  queue hitWhileRisingWorld = [] /\
  isPlaying (gameState hitWhileRisingWorld) = false /\
  (forall f, step (AnimationFrame f) hitWhileRisingWorld = hitWhileRisingWorld) /\
  (forall code, code <> Space -> step (KeyDown code) hitWhileRisingWorld = hitWhileRisingWorld) /\
  (isGameOver (gameState hitWhileRisingWorld) = true ->
   step Click hitWhileRisingWorld = hitWhileRisingWorld /\
   step (KeyDown Space) hitWhileRisingWorld = render (startGame hitWhileRisingWorld) /\
   step Button hitWhileRisingWorld = render (startGame hitWhileRisingWorld)).
Proof.
  split; [reflexivity|]. split; [reflexivity|].
  apply (inputs_ignored_outside_run hitWhileRisingWorld); reflexivity.
Defined.


(** ** Lane moves undo each other *)

(** X9. In a reachable state, also after direct calls of [moveLeft()] and
    [moveRight()], a move to the left followed by a move to the right gives
    back the same component unless the player is at the left wall, and a
    move to the right followed by a move to the left does unless the player
    is at the right wall. *)
Theorem lane_moves_cancel (c : bool) (es : list Event) (ms : list LaneCall) (g : Game) :
  let w := calls ms (run es (mount c)) in
  gameRef w = Some g ->
  ((0 < currentLane g)%Z -> moveRight (moveLeft w) = w) /\
  ((currentLane g < 2)%Z -> moveLeft (moveRight w) = w).
Proof.
  cbv zeta. intros Hg.
  pose proof (calls_laneSnapped ms _ (laneSnapped_reachable c es)) as H.
  unfold refHolds in H. rewrite Hg in H. destruct H as [Hr Hx].
  destruct (calls ms (run es (mount c))) as [r st q ct]. cbn in Hg. subst r.
  destruct g as [[x y z] os gs j v sp sc l]. cbn in Hr, Hx. subst x.
  split; intros Hl; cbn in Hl.
  - unfold moveLeft. cbn [gameRef currentLane].
    destruct (Z.ltb_spec 0 l); [|lia].
    unfold moveRight. cbn [gameRef setRef currentLane setPlayer setLane].
    destruct (Z.ltb_spec (l - 1) 2); [|lia].
    cbn. replace (l - 1 + 1)%Z with l by lia. reflexivity.
  - unfold moveRight. cbn [gameRef currentLane].
    destruct (Z.ltb_spec l 2); [|lia].
    unfold moveLeft. cbn [gameRef setRef currentLane setPlayer setLane].
    destruct (Z.ltb_spec 0 (l + 1)); [|lia].
    cbn. replace (l + 1 - 1)%Z with l by lia. reflexivity.
Qed.

Lemma lane_moves_cancel_witness :
  gameRef (calls [] (run [Button] (mount true))) = Some freshGame /\
  ((0 < currentLane freshGame)%Z ->
   moveRight (moveLeft (calls [] (run [Button] (mount true))))
   = calls [] (run [Button] (mount true))) /\
  ((currentLane freshGame < 2)%Z ->
   moveLeft (moveRight (calls [] (run [Button] (mount true))))
   = calls [] (run [Button] (mount true))).
Proof.
  split; [reflexivity|].
  apply (lane_moves_cancel true [Button] [] freshGame). reflexivity.
Defined.

(** ** The arc of a jump *)

Lemma jumpPhysics_arcStep g : jumpState (jumpPhysics g) = arcStep (jumpState g).
Proof.
  unfold jumpState, jumpPhysics, arcStep.
  destruct (isJumping g) eqn:Hj; [|rewrite Hj; reflexivity].
  destruct (Num.le _ _); reflexivity.
Qed.

Lemma tick_arcStep f g q : jumpState (fst (tick f (g, q))) = arcStep (jumpState g).
Proof.
  rewrite <- jumpPhysics_arcStep. unfold jumpState.
  destruct (tick_kin f g q) as (-> & -> & -> & _). reflexivity.
Qed.

Lemma ticks_arcStep fs : forall g q,
  jumpState (fst (ticks fs (g, q))) = Nat.iter (length fs) arcStep (jumpState g).
Proof.
  induction fs as [|f fs IH]; intros g q; [reflexivity|].
  cbn [ticks fold_left length].
  destruct (tick f (g, q)) as [g1 q1] eqn:Ht.
  change (fold_left (fun m f => tick f m) fs (g1, q1)) with (ticks fs (g1, q1)).
  rewrite IH, Nat.iter_succ_r. f_equal.
  change g1 with (fst (g1, q1)). rewrite <- Ht. apply tick_arcStep.
Qed.

Lemma arc_first_frames : forallb arcOK (seq 0 35) = true.
Proof. vm_compute. reflexivity. Qed.

Lemma arc_lands : Nat.iter 35 arcStep (groundLevel, jumpImpulse, true) = (groundLevel, 0, false).
Proof. vm_compute. reflexivity. Qed.

Lemma arc_grounded n : Nat.iter n arcStep (groundLevel, 0, false) = (groundLevel, 0, false).
Proof.
  induction n as [|n IH]; [reflexivity|].
  rewrite Nat.iter_succ, IH. reflexivity.
Qed.

Lemma arc_landed n :
  Nat.iter (n + 35) arcStep (groundLevel, jumpImpulse, true) = (groundLevel, 0, false).
Proof. rewrite Nat.iter_add, arc_lands. apply arc_grounded. Qed.


(** ** Depths stay between the spawn depth and the pass-through depth *)

Lemma forEachFrom_preserves_at {A S : Type} (arr : S -> list A)
      (cb : A -> nat -> S -> S) (P : S -> Prop) :
  (forall a k s, arr s !! k = Some a -> P s -> P (cb a k s)) ->
  forall len k s, P s -> P (forEachFrom arr cb k len s).
Proof.
  intros Hcb len. induction len as [|len IH]; intros k s Hs; cbn [forEachFrom].
  - exact Hs.
  - apply IH. destruct (arr s !! k) eqn:Hk; auto.
Qed.

Lemma delete_insert_same {A : Type} (l : list A) (k : nat) (x : A) :
  delete k (<[k := x]> l) = delete k l.
Proof.
  apply list_eq. intros i.
  destruct (decide (i < k)%nat) as [Hlt|Hge].
  - rewrite !list_lookup_delete_lt by exact Hlt. apply list_lookup_insert_ne. lia.
  - rewrite !list_lookup_delete_ge by lia. apply list_lookup_insert_ne. lia.
Qed.

Lemma depthInRange_spawn : depthInRange spawnDepth.
Proof. unfold depthInRange, spawnDepth, passThreshold. lra. Qed.

Lemma depthInRange_move z sp :
  0 <= sp -> depthInRange z -> Num.gt (Num.add z sp) passThreshold = false ->
  depthInRange (Num.add z sp).
Proof.
  unfold depthInRange, Num.gt. intros Hsp [Hlo Hhi] Hgt.
  apply NumFacts.lt_false in Hgt.
  pose proof (NumFacts.add_eq z sp) as He. split; [lra | exact Hgt].
Qed.

Lemma depthInRange_near z sp :
  0 <= sp -> depthInRange z -> Qabs (Num.add z sp - playerDepth) < 1 ->
  depthInRange (Num.add z sp).
Proof.
  unfold depthInRange, spawnDepth, passThreshold, playerDepth.
  intros Hsp [Hlo Hhi] Hab. apply Qabs_Qlt_condition in Hab.
  pose proof (NumFacts.add_eq z sp) as He. lra.
Qed.

Lemma bobStep_bounded f gem k g :
  gems g !! k = Some gem -> bounded g -> bounded (bobStep f gem k g).
Proof.
  intros Hk (Hp & Ho & Hg). unfold bounded, bobStep. cbn [setGems player obstacles gems].
  repeat split; auto.
  apply Forall_insert; [exact Hg|].
  apply (Forall_lookup_1 _ _ _ _ Hg Hk).
Qed.

Lemma obstacleStep_bounded sp o k m :
  0 <= sp -> obstacles (fst m) !! k = Some o ->
  bounded (fst m) -> bounded (fst (obstacleStep sp o k m)).
Proof.
  destruct m as [g q]. cbn [fst]. intros Hsp Hk (Hp & Ho & Hg).
  pose proof (Forall_lookup_1 _ _ _ _ Ho Hk) as Hz.
  unfold obstacleStep. cbn [setObstacles player].
  destruct (hits (player g) (moveObstacle sp o)) eqn:Hh.
  - cbn [fst]. unfold bounded. cbn [setObstacles player obstacles gems].
    repeat split; auto. apply Forall_insert; [exact Ho|].
    apply hits_spec in Hh as (_ & Hab & _). rewrite Hp in Hab.
    cbn [moveObstacle opos setZ vz] in *. apply depthInRange_near; assumption.
  - destruct (Num.gt _ _) eqn:Hgt; cbn [fst]; unfold bounded;
      cbn [setObstacles player obstacles gems]; repeat split; auto.
    + unfold splice1. rewrite delete_insert_same. apply Forall_delete, Ho.
    + apply Forall_insert; [exact Ho|].
      cbn [moveObstacle opos setZ vz] in *. apply depthInRange_move; assumption.
Qed.

Lemma gemStep_bounded sp gem k m :
  0 <= sp -> gems (fst m) !! k = Some gem ->
  bounded (fst m) -> bounded (fst (gemStep sp gem k m)).
Proof.
  destruct m as [g q]. cbn [fst]. intros Hsp Hk (Hp & Ho & Hg).
  pose proof (Forall_lookup_1 _ _ _ _ Hg Hk) as Hz.
  unfold gemStep. cbn [setGems player].
  destruct (collects (player g) (moveGem sp gem)) eqn:Hc.
  - assert (Hrest : Forall (fun gm => depthInRange (vz (gpos gm)))
                      (splice1 k (<[k := moveGem sp gem]> (gems g)))).
    { unfold splice1. rewrite delete_insert_same. apply Forall_delete, Hg. }
    destruct (Num.gt _ _); cbn [fst]; unfold bounded;
      cbn [setGems setScore player obstacles gems]; repeat split; auto.
    apply Forall_delete, Hrest.
  - destruct (Num.gt _ _) eqn:Hgt; cbn [fst]; unfold bounded;
      cbn [setGems player obstacles gems]; repeat split; auto.
    + unfold splice1. rewrite delete_insert_same. apply Forall_delete, Hg.
    + apply Forall_insert; [exact Hg|].
      cbn [moveGem gpos setZ vz] in *. apply depthInRange_move; assumption.
Qed.

Lemma jumpPhysics_bounded g : bounded g -> bounded (jumpPhysics g).
Proof.
  intros (Hp & Ho & Hg). unfold jumpPhysics.
  destruct (isJumping g); [|repeat split; auto].
  destruct (Num.le _ _); repeat split; auto.
Qed.

Lemma spawn_bounded f g : bounded g -> bounded (spawn f g).
Proof.
  intros (Hp & Ho & Hg). unfold spawn, createObstacle, createGem.
  destruct (Num.lt (rndObstacle f) _), (Num.lt (rndGem f) _); unfold bounded;
    cbn [setObstacles setGems player obstacles gems]; repeat split; auto;
    apply Forall_app_2; auto; apply Forall_cons; split; auto using Forall_nil_2;
    apply depthInRange_spawn.
Qed.

Lemma tick_bounded f g q :
  0 <= speed g -> bounded g -> bounded (fst (tick f (g, q))).
Proof.
  intros Hsp Hb. unfold tick.
  set (g1 := bobGems f (jumpPhysics g)).
  assert (Hb1 : bounded g1).
  { apply (forEachFrom_preserves_at gems (bobStep f) bounded).
    - intros a k s. apply bobStep_bounded.
    - apply jumpPhysics_bounded, Hb. }
  assert (Hs1 : speed g1 = speed g).
  { pose proof (bobGems_kin f (jumpPhysics g)) as Hk. unfold kin in Hk.
    injection Hk as _ _ _ Hs _. unfold g1. rewrite Hs.
    unfold jumpPhysics. destruct (isJumping g); [destruct (Num.le _ _)|]; reflexivity. }
  rewrite Hs1.
  assert (H3 : bounded (fst (forEach (fun m => gems (fst m)) (gemStep (speed g))
                 (forEach (fun m => obstacles (fst m)) (obstacleStep (speed g)) (g1, q))))).
  { apply (forEachFrom_preserves_at (fun m => gems (fst m)) (gemStep (speed g))
             (fun m => bounded (fst m))).
    { intros a k s. apply gemStep_bounded, Hsp. }
    apply (forEachFrom_preserves_at (fun m => obstacles (fst m)) (obstacleStep (speed g))
             (fun m => bounded (fst m))).
    { intros a k s. apply obstacleStep_bounded, Hsp. }
    exact Hb1. }
  destruct (forEach (fun m => gems (fst m)) _ _) as [g3 q3]. cbn [fst] in *.
  destruct (spawn_bounded f g3 H3) as (Hp & Ho & Hg).
  repeat split; auto.
Qed.

Lemma speed_above_base s : baseSpeed <= s -> baseSpeed <= Num.add s speedIncrement.
Proof.
  intros H. pose proof (NumFacts.add_eq s speedIncrement) as He.
  unfold baseSpeed, speedIncrement in *. lra.
Qed.

(** X11. In every reachable state the scroll speed is at least the base
    speed 0.15, the player is at depth 5, and every obstacle and every gem of
    the two arrays has its depth between the spawn depth -40 and the
    pass-through depth 10. *)
Theorem depths_in_range (c : bool) (es : list Event) (g : Game) :
  gameRef (run es (mount c)) = Some g ->
  baseSpeed <= speed g /\
  vz (player g) = playerDepth /\
  Forall (fun o => -40 # 1 <= vz (opos o) /\ vz (opos o) <= 10 # 1) (obstacles g) /\
  Forall (fun gem => -40 # 1 <= vz (gpos gem) /\ vz (gpos gem) <= 10 # 1) (gems g).
Proof.
  intros Hg.
  assert (H : baseSpeed <= speed g /\ bounded g).
  { revert Hg. apply (reachable_refHolds (fun g => baseSpeed <= speed g /\ bounded g)).
    - split; [apply Qle_refl | repeat split; constructor].
    - intros g0. split; [apply Qle_refl | repeat split; constructor].
    - intros g0 [Hs Hb] _. split; [exact Hs | exact Hb].
    - intros g0 [Hs (Hp & Ho & Hgm)] _. split; [exact Hs | repeat split; auto].
    - intros g0 [Hs (Hp & Ho & Hgm)] _. split; [exact Hs | repeat split; auto].
    - intros f g0 q [Hs Hb]. split.
      + destruct (tick_kin f g0 q) as (_ & _ & _ & -> & _). apply speed_above_base, Hs.
      + apply tick_bounded; [|exact Hb]. unfold baseSpeed in Hs. lra. }
  destruct H as [Hs (Hp & Ho & Hgm)]. auto.
Qed.

Lemma depths_in_range_witness :
  gameRef (run pruneBeforeHit (mount true)) = Some pruneBeforeHitGame /\
  baseSpeed <= speed pruneBeforeHitGame /\
  vz (player pruneBeforeHitGame) = playerDepth /\
  Forall (fun o => -40 # 1 <= vz (opos o) /\ vz (opos o) <= 10 # 1)
         (obstacles pruneBeforeHitGame) /\
  Forall (fun gem => -40 # 1 <= vz (gpos gem) /\ vz (gpos gem) <= 10 # 1)
         (gems pruneBeforeHitGame).
Proof.
  split; [vm_compute; reflexivity|].
  apply (depths_in_range true pruneBeforeHit pruneBeforeHitGame).
  vm_compute. reflexivity.
Defined.

(** ** A frame adds at most one entity of each kind *)

Lemma length_delete_le {A : Type} (l : list A) (k : nat) :
  (length (delete k l) <= length l)%nat.
Proof.
  revert k. induction l as [|x l IH]; intros [|k]; try (cbn; lia).
  change (delete (S k) (x :: l)) with (x :: delete k l).
  specialize (IH k). cbn [length]. lia.
Qed.

Lemma obstacleStep_lengths sp o k m :
  (length (obstacles (fst (obstacleStep sp o k m))) <= length (obstacles (fst m)))%nat /\
  gems (fst (obstacleStep sp o k m)) = gems (fst m).
Proof.
  destruct m as [g q]. unfold obstacleStep. cbn [setObstacles player].
  destruct (hits _ _); [|destruct (Num.gt _ _)]; cbn [fst setObstacles obstacles gems];
    unfold splice1; rewrite ?delete_insert_same, ?length_insert;
    split; auto using length_delete_le.
Qed.

Lemma gemStep_lengths sp gem k m :
  (length (gems (fst (gemStep sp gem k m))) <= length (gems (fst m)))%nat /\
  obstacles (fst (gemStep sp gem k m)) = obstacles (fst m).
Proof.
  destruct m as [g q]. unfold gemStep. cbn [setGems player].
  destruct (collects _ _); destruct (Num.gt _ _);
    cbn [fst setGems setScore obstacles gems];
    unfold splice1; rewrite ?delete_insert_same, ?length_insert; split; auto;
    repeat (etransitivity; [apply length_delete_le|]); auto.
Qed.

(** X12. A frame never lengthens an array by more than one: after it there
    is at most one obstacle more and at most one gem more than before. *)
Theorem frame_adds_at_most_one (f : Frame) (g : Game) (q : list Update) :
  (length (obstacles (fst (tick f (g, q)))) <= S (length (obstacles g)))%nat /\
  (length (gems (fst (tick f (g, q)))) <= S (length (gems g)))%nat.
Proof.
  unfold tick.
  set (g1 := bobGems f (jumpPhysics g)). set (sp := speed g1).
  assert (H1 : length (obstacles g1) = length (obstacles g) /\
               length (gems g1) = length (gems g)).
  { apply (forEach_preserves gems (bobStep f)
             (fun g' => length (obstacles g') = length (obstacles g) /\
                        length (gems g') = length (gems g))).
    - intros a k s [Ho Hg]. unfold bobStep. cbn [setGems obstacles gems].
      rewrite length_insert. auto.
    - unfold jumpPhysics. destruct (isJumping g); [destruct (Num.le _ _)|]; auto. }
  assert (H3 : (length (obstacles (fst (forEach (fun m => gems (fst m)) (gemStep sp)
                  (forEach (fun m => obstacles (fst m)) (obstacleStep sp) (g1, q)))))
                <= length (obstacles g))%nat /\
               (length (gems (fst (forEach (fun m => gems (fst m)) (gemStep sp)
                  (forEach (fun m => obstacles (fst m)) (obstacleStep sp) (g1, q)))))
                <= length (gems g))%nat).
  { apply (forEach_preserves _ _
             (fun m => (length (obstacles (fst m)) <= length (obstacles g))%nat /\
                       (length (gems (fst m)) <= length (gems g))%nat)).
    { intros a k s [Ho Hg]. destruct (gemStep_lengths sp a k s) as [Hl ->]. lia. }
    apply (forEach_preserves _ _
             (fun m => (length (obstacles (fst m)) <= length (obstacles g))%nat /\
                       (length (gems (fst m)) <= length (gems g))%nat)).
    { intros a k s [Ho Hg]. destruct (obstacleStep_lengths sp a k s) as [Hl ->]. lia. }
    cbn [fst]. lia. }
  destruct (forEach (fun m => gems (fst m)) _ _) as [g3 q3]. cbn [fst] in *.
  unfold spawn, createObstacle, createGem.
  destruct (Num.lt (rndObstacle f) _), (Num.lt (rndGem f) _);
    cbn [setSpeed setObstacles setGems obstacles gems]; rewrite ?length_app; cbn [length]; lia.
Qed.

(** ** Spawned entities *)

Lemma createObstacle_spawned f g :
  createObstacle f g = setObstacles (obstacles g ++ [spawnedObstacle f]) g.
Proof. reflexivity. Qed.

Lemma createGem_spawned f g :
  createGem f g = setGems (gems g ++ [spawnedGem f]) g.
Proof. reflexivity. Qed.

Lemma randomLane_unitDraw r :
  unitDraw r -> exists x, randomLane r = Some x /\ In x [-2 # 1; 0 # 1; 2 # 1].
Proof.
  intros [Hlo Hhi]. unfold randomLane.
  assert (Hm : Num.mul r (3 # 1) == r * (3 # 1)) by apply Qred_correct.
  assert (H0 : (0 <= Qfloor (Num.mul r (3 # 1)))%Z).
  { change 0%Z with (Qfloor 0). apply Qfloor_resp_le. lra. }
  assert (H3 : (Qfloor (Num.mul r (3 # 1)) < 3)%Z).
  { rewrite Zlt_Qlt. eapply Qle_lt_trans; [apply Qfloor_le|].
    change (inject_Z 3) with (3 # 1). lra. }
  assert (Hc : Qfloor (Num.mul r (3 # 1)) = 0%Z \/ Qfloor (Num.mul r (3 # 1)) = 1%Z
               \/ Qfloor (Num.mul r (3 # 1)) = 2%Z) by lia.
  destruct Hc as [-> | [-> | ->]]; cbn; eexists; split; try reflexivity; cbn; auto.
Qed.

(** X13. With draws in [0, 1), the obstacle pushed by [createObstacle] has a
    width in [1.2, 2.4) and a height in [0.9, 1.6), lies in one of the three
    lanes at the spawn depth -40 and at half its height; the gem pushed by
    [createGem] lies in one of the three lanes at height 1.5 and depth -40,
    unturned.  Both are appended to their array, which is otherwise kept. *)
Theorem spawned_entities_in_range (f : Frame) (g : Game) :
  unitDraw (rndWidth f) -> unitDraw (rndHeight f) ->
  unitDraw (rndObstacleLane f) -> unitDraw (rndGemLane f) ->
  (exists o,
      obstacles (createObstacle f g) = obstacles g ++ [o] /\
      12 # 10 <= owidth o /\ owidth o < 24 # 10 /\
      9 # 10 <= oheight o /\ oheight o < 16 # 10 /\
      (exists x, vx (opos o) = Some x /\ In x [-2 # 1; 0 # 1; 2 # 1]) /\
      vy (opos o) == oheight o / (2 # 1) /\
      vz (opos o) = -40 # 1) /\
  (exists gem,
      gems (createGem f g) = gems g ++ [gem] /\
      (exists x, vx (gpos gem) = Some x /\ In x [-2 # 1; 0 # 1; 2 # 1]) /\
      vy (gpos gem) = 15 # 10 /\ vz (gpos gem) = -40 # 1 /\ grot gem = 0).
Proof.
  intros [Hw0 Hw1] [Hh0 Hh1] Hl Hgl. split.
  - exists (spawnedObstacle f). rewrite createObstacle_spawned.
    cbn [setObstacles obstacles spawnedObstacle owidth oheight opos vx vy vz].
    pose proof (NumFacts.add_eq (12 # 10) (Num.mul (rndWidth f) (12 # 10))) as Ew.
    pose proof (Qred_correct (rndWidth f * (12 # 10))) as Ew'.
    pose proof (NumFacts.add_eq (9 # 10) (Num.mul (rndHeight f) (7 # 10))) as Eh.
    pose proof (Qred_correct (rndHeight f * (7 # 10))) as Eh'.
    fold (Num.mul (rndWidth f) (12 # 10)) in Ew'.
    fold (Num.mul (rndHeight f) (7 # 10)) in Eh'.
    split; [reflexivity|].
    repeat (split; [lra|]).
    split; [apply randomLane_unitDraw, Hl|].
    split; [apply Qred_correct | reflexivity].
  - exists (spawnedGem f). rewrite createGem_spawned.
    cbn [setGems gems spawnedGem gpos grot vx vy vz].
    split; [reflexivity|]. split; [apply randomLane_unitDraw, Hgl|]. auto.
Qed.

Lemma spawned_entities_in_range_witness :
  unitDraw (rndWidth (obstacleFrame (1 # 2))) /\
  unitDraw (rndHeight (obstacleFrame (1 # 2))) /\
  unitDraw (rndObstacleLane (obstacleFrame (1 # 2))) /\
  unitDraw (rndGemLane (obstacleFrame (1 # 2))) /\
  (exists o,
      obstacles (createObstacle (obstacleFrame (1 # 2)) freshGame) = obstacles freshGame ++ [o] /\
      12 # 10 <= owidth o /\ owidth o < 24 # 10 /\
      9 # 10 <= oheight o /\ oheight o < 16 # 10 /\
      (exists x, vx (opos o) = Some x /\ In x [-2 # 1; 0 # 1; 2 # 1]) /\
      vy (opos o) == oheight o / (2 # 1) /\
      vz (opos o) = -40 # 1) /\
  (exists gem,
      gems (createGem (obstacleFrame (1 # 2)) freshGame) = gems freshGame ++ [gem] /\
      (exists x, vx (gpos gem) = Some x /\ In x [-2 # 1; 0 # 1; 2 # 1]) /\
      vy (gpos gem) = 15 # 10 /\ vz (gpos gem) = -40 # 1 /\ grot gem = 0).
Proof.
  assert (H0 : unitDraw 0) by (unfold unitDraw; lra).
  assert (H1 : unitDraw (1 # 2)) by (unfold unitDraw; lra).
  split; [exact H0|]. split; [exact H0|]. split; [exact H1|]. split; [exact H0|].
  apply (spawned_entities_in_range (obstacleFrame (1 # 2)) freshGame); assumption.
Defined.

(** ** Gems and the player on the ground *)

(** X14. For a player on the ground the vertical test of the gem
    collection always passes: with the sine between -1 and 1 a gem bobs
    between heights 1.3 and 1.7, less than 1.5 from the ground level 0.6, so
    that collecting depends on the lane and the depth alone. *)
Theorem grounded_player_reaches_gems (f : Frame) (k : nat) (gem : Gem) (sp : Q) (p : Vec3) :
  -1 # 1 <= wave f k (vz (gpos gem)) -> wave f k (vz (gpos gem)) <= 1 ->
  vy p = groundLevel ->
  13 # 10 <= vy (gpos (bobGem f k gem)) /\ vy (gpos (bobGem f k gem)) <= 17 # 10 /\
  collects p (moveGem sp (bobGem f k gem)) =
    Num.absDiffLt (vx (gpos gem)) (vx p) 1
    && Num.absDiffLt (Some (Num.add (vz (gpos gem)) sp)) (Some (vz p)) 1.
Proof.
  intros Hlo Hhi Hy.
  cbn [bobGem gpos setY vy].
  pose proof (NumFacts.add_eq (15 # 10) (Num.mul (wave f k (vz (gpos gem))) (2 # 10))) as Ea.
  pose proof (Qred_correct (wave f k (vz (gpos gem)) * (2 # 10))) as Em.
  fold (Num.mul (wave f k (vz (gpos gem))) (2 # 10)) in Em.
  split; [lra|]. split; [lra|].
  unfold collects. cbn [moveGem bobGem gpos setY setZ vx vy vz]. rewrite Hy.
  assert (Hv : Num.absDiffLt
                 (Some (Num.add (15 # 10) (Num.mul (wave f k (vz (gpos gem))) (2 # 10))))
                 (Some groundLevel) (15 # 10) = true).
  { apply absDiffLt_spec. eexists _, _. split; [reflexivity|]. split; [reflexivity|].
    apply Qabs_Qlt_condition. unfold groundLevel. lra. }
  rewrite Hv, andb_true_r. reflexivity.
Qed.

Lemma grounded_player_reaches_gems_witness :
  -1 # 1 <= wave quietFrame 0 (vz (gpos firstGem)) /\
  wave quietFrame 0 (vz (gpos firstGem)) <= 1 /\
  vy standing = groundLevel /\
  13 # 10 <= vy (gpos (bobGem quietFrame 0 firstGem)) /\
  vy (gpos (bobGem quietFrame 0 firstGem)) <= 17 # 10 /\
  collects standing (moveGem (487 # 3125) (bobGem quietFrame 0 firstGem)) =
    Num.absDiffLt (vx (gpos firstGem)) (vx standing) 1
    && Num.absDiffLt (Some (Num.add (vz (gpos firstGem)) (487 # 3125))) (Some (vz standing)) 1.
Proof.
  assert (Hlo : -1 # 1 <= wave quietFrame 0 (vz (gpos firstGem))) by (cbn; lra).
  assert (Hhi : wave quietFrame 0 (vz (gpos firstGem)) <= 1) by (cbn; lra).
  split; [exact Hlo|]. split; [exact Hhi|]. split; [reflexivity|].
  apply (grounded_player_reaches_gems quietFrame 0 firstGem (487 # 3125) standing Hlo Hhi).
  reflexivity.
Defined.

(** ** A frame in which no obstacle is pruned *)

Lemma setObstacles_twice l l' g : setObstacles l (setObstacles l' g) = setObstacles l g.
Proof. reflexivity. Qed.

Lemma hitters_cons p sp o l :
  hitters p sp (o :: l) =
  if hits p (moveObstacle sp o) then o :: hitters p sp l else hitters p sp l.
Proof. reflexivity. Qed.

(** Without a splice the loop visits the obstacles one after the other. *)
Lemma obstacles_loop_no_prune sp g : forall l2 l1 q,
  Forall (fun o => Num.gt (vz (opos (moveObstacle sp o))) passThreshold = false) l2 ->
  forEachFrom (fun m => obstacles (fst m)) (obstacleStep sp) (length l1) (length l2)
              (setObstacles (l1 ++ l2) g, q)
  = (setObstacles (l1 ++ (moveObstacle sp <$> l2)) g,
     q ++ repeat UGameOver (length (hitters (player g) sp l2))).
Proof.
  induction l2 as [|o l2 IH]; intros l1 q Hno.
  - cbn. rewrite !app_nil_r. reflexivity.
  - apply Forall_cons in Hno as [Ho Hno].
    cbn [length]. rewrite forEachFrom_S. cbn [fst setObstacles obstacles].
    rewrite (list_lookup_middle l1 l2 o (length l1) eq_refl).
    assert (Hins : <[length l1 := moveObstacle sp o]> (l1 ++ o :: l2)
                   = (l1 ++ [moveObstacle sp o]) ++ l2).
    { rewrite insert_app_r_alt by lia. rewrite Nat.sub_diag, <- app_assoc. reflexivity. }
    assert (Hlen : S (length l1) = length (l1 ++ [moveObstacle sp o]))
      by (rewrite length_app; cbn; lia).
    assert (Hstep : obstacleStep sp o (length l1) (setObstacles (l1 ++ o :: l2) g, q)
                    = (setObstacles ((l1 ++ [moveObstacle sp o]) ++ l2) g,
                       if hits (player g) (moveObstacle sp o) then q ++ [UGameOver] else q)).
    { unfold obstacleStep. cbn [setObstacles player obstacles]. rewrite Hins, Ho.
      destruct (hits (player g) (moveObstacle sp o)); reflexivity. }
    rewrite Hstep, Hlen, (IH _ _ Hno), hitters_cons, fmap_cons, <- app_assoc.
    destruct (hits (player g) (moveObstacle sp o)); cbn [length repeat app];
      rewrite <- ?app_assoc; reflexivity.
Qed.

Lemma filter_gameOver_repeat n :
  List.filter isGameOverUpdate (repeat UGameOver n) = repeat UGameOver n.
Proof. induction n as [|n IH]; cbn; [reflexivity | rewrite IH; reflexivity]. Qed.

Lemma gemStep_gameOvers sp gem k m :
  List.filter isGameOverUpdate (snd (gemStep sp gem k m))
  = List.filter isGameOverUpdate (snd m).
Proof.
  destruct m as [g q]. cbn [snd].
  pose proof (gemStep_score sp gem k g q) as H. cbv zeta in H.
  destruct (collects _ _); destruct H as [_ ->]; [|reflexivity].
  rewrite List.filter_app. cbn. apply app_nil_r.
Qed.

Lemma jumpPhysics_obstacles g : obstacles (jumpPhysics g) = obstacles g.
Proof.
  unfold jumpPhysics. destruct (isJumping g); [destruct (Num.le _ _)|]; reflexivity.
Qed.

Lemma bobGems_obstacles f g : obstacles (bobGems f g) = obstacles g.
Proof.
  apply (forEach_preserves gems (bobStep f) (fun g' => obstacles g' = obstacles g));
    [|reflexivity].
  intros a k s Hs. exact Hs.
Qed.

(** X15. A frame in which no obstacle passes depth 10 visits every obstacle:
    each one advances by the scroll speed, the array is otherwise unchanged
    but for the spawned obstacle, and the game-over update is queued once
    for each obstacle that, after its move, meets the hit test against the
    player as the jump physics left it; so it is queued if and only if there
    is such an obstacle. *)
Theorem frame_without_pruning (f : Frame) (g : Game) :
  Forall (fun o => Num.gt (vz (opos (moveObstacle (speed g) o))) passThreshold = false)
         (obstacles g) ->
  obstacles (fst (tick f (g, []))) =
    (moveObstacle (speed g) <$> obstacles g)
    ++ (if Num.lt (rndObstacle f) (2 # 100) then [spawnedObstacle f] else []) /\
  List.filter isGameOverUpdate (snd (tick f (g, []))) =
    repeat UGameOver (length (hitters (player (jumpPhysics g)) (speed g) (obstacles g))) /\
  (existsb isGameOverUpdate (snd (tick f (g, []))) = true <->
   exists o, In o (obstacles g) /\
             hits (player (jumpPhysics g)) (moveObstacle (speed g) o) = true).
Proof.
  intros Hno.
  set (g1 := bobGems f (jumpPhysics g)).
  assert (Hk : kin g1 = kin (jumpPhysics g)) by apply bobGems_kin.
  assert (Hs1 : speed g1 = speed g).
  { unfold kin in Hk. injection Hk as _ _ _ Hs _. rewrite Hs.
    unfold jumpPhysics. destruct (isJumping g); [destruct (Num.le _ _)|]; reflexivity. }
  assert (Hp1 : player g1 = player (jumpPhysics g)).
  { unfold kin in Hk. injection Hk as Hp _ _ _ _. exact Hp. }
  assert (Ho1 : obstacles g1 = obstacles g).
  { unfold g1. rewrite bobGems_obstacles. apply jumpPhysics_obstacles. }
  assert (Hloop : forEach (fun m => obstacles (fst m)) (obstacleStep (speed g)) (g1, [])
                  = (setObstacles (moveObstacle (speed g) <$> obstacles g) g1,
                     repeat UGameOver
                       (length (hitters (player (jumpPhysics g)) (speed g) (obstacles g))))).
  { assert (Hg1 : setObstacles (obstacles g) g1 = g1)
      by (rewrite <- Ho1; destruct g1; reflexivity).
    pose proof (obstacles_loop_no_prune (speed g) g1 (obstacles g) [] [] Hno) as HL.
    cbn [length app] in HL. rewrite Hg1, Hp1 in HL.
    unfold forEach. cbn [fst]. rewrite Ho1. exact HL. }
  assert (Hgems : obstacles (fst (forEach (fun m => gems (fst m)) (gemStep (speed g))
                     (forEach (fun m => obstacles (fst m)) (obstacleStep (speed g)) (g1, []))))
                  = (moveObstacle (speed g) <$> obstacles g) /\
                  List.filter isGameOverUpdate
                    (snd (forEach (fun m => gems (fst m)) (gemStep (speed g))
                       (forEach (fun m => obstacles (fst m)) (obstacleStep (speed g)) (g1, []))))
                  = repeat UGameOver
                      (length (hitters (player (jumpPhysics g)) (speed g) (obstacles g)))).
  { apply (forEach_preserves _ _
             (fun m => obstacles (fst m) = (moveObstacle (speed g) <$> obstacles g) /\
                       List.filter isGameOverUpdate (snd m)
                       = repeat UGameOver
                           (length (hitters (player (jumpPhysics g)) (speed g) (obstacles g))))).
    - intros a k s [Ho Hq]. rewrite gemStep_gameOvers.
      destruct (gemStep_lengths (speed g) a k s) as [_ ->]. auto.
    - rewrite Hloop. cbn [fst snd setObstacles obstacles].
      split; [reflexivity | apply filter_gameOver_repeat]. }
  assert (Htick : obstacles (fst (tick f (g, []))) =
                  (moveObstacle (speed g) <$> obstacles g)
                  ++ (if Num.lt (rndObstacle f) (2 # 100) then [spawnedObstacle f] else []) /\
                  List.filter isGameOverUpdate (snd (tick f (g, []))) =
                  repeat UGameOver
                    (length (hitters (player (jumpPhysics g)) (speed g) (obstacles g)))).
  { unfold tick. fold g1. rewrite Hs1.
    destruct (forEach (fun m => gems (fst m)) _ _) as [g3 q3]. cbn [fst snd] in *.
    destruct Hgems as [Ho3 Hq3]. split; [|exact Hq3].
    unfold spawn. rewrite createObstacle_spawned, createGem_spawned.
    destruct (Num.lt (rndObstacle f) _), (Num.lt (rndGem f) _);
      cbn [setSpeed setObstacles setGems obstacles]; rewrite Ho3, ?app_nil_r; reflexivity. }
  destruct Htick as [Ho Hq]. split; [exact Ho|]. split; [exact Hq|].
  assert (Hex : existsb isGameOverUpdate (snd (tick f (g, []))) = true <->
                List.filter isGameOverUpdate (snd (tick f (g, []))) <> []).
  { generalize (snd (tick f (g, []))). intros l. induction l as [|u l IH]; cbn.
    - split; [discriminate | congruence].
    - destruct (isGameOverUpdate u); cbn; [split; [discriminate | reflexivity]|exact IH]. }
  rewrite Hex, Hq. unfold hitters.
  generalize (obstacles g). intros l. induction l as [|o l IH]; cbn.
  - split; [congruence | intros (o & [] & _)].
  - destruct (hits (player (jumpPhysics g)) (moveObstacle (speed g) o)) eqn:Hh; cbn.
    + split; [eauto | discriminate].
    + rewrite IH. split.
      * intros (o' & Hin & Hh'). eauto.
      * intros (o' & [<- | Hin] & Hh'); [congruence | eauto].
Qed.

Lemma frame_without_pruning_witness :
  Forall (fun o => Num.gt (vz (opos (moveObstacle (speed twoInReachGame) o))) passThreshold
                   = false)
         (obstacles twoInReachGame) /\
  obstacles (fst (tick quietFrame (twoInReachGame, []))) =
    (moveObstacle (speed twoInReachGame) <$> obstacles twoInReachGame)
    ++ (if Num.lt (rndObstacle quietFrame) (2 # 100) then [spawnedObstacle quietFrame] else []) /\
  List.filter isGameOverUpdate (snd (tick quietFrame (twoInReachGame, []))) =
    repeat UGameOver
      (length (hitters (player (jumpPhysics twoInReachGame)) (speed twoInReachGame)
                       (obstacles twoInReachGame))) /\
  (existsb isGameOverUpdate (snd (tick quietFrame (twoInReachGame, []))) = true <->
   exists o, In o (obstacles twoInReachGame) /\
             hits (player (jumpPhysics twoInReachGame))
                  (moveObstacle (speed twoInReachGame) o) = true).
Proof.
  assert (H : Forall (fun o => Num.gt (vz (opos (moveObstacle (speed twoInReachGame) o)))
                                      passThreshold = false)
                     (obstacles twoInReachGame))
    by (repeat constructor).
  split; [exact H|].
  apply (frame_without_pruning quietFrame twoInReachGame H).
Defined.

(** ** The colour channels of the stone texture *)

Lemma toInt32_small c : (0 <= c < 2 ^ 31)%Z -> toInt32 c = c.
Proof.
  intros H. unfold toInt32. rewrite Z.mod_small; lia.
Qed.

Lemma land_255 a : Z.land a 255 = (a mod 256)%Z.
Proof. change 255%Z with (Z.ones 8). rewrite Z.land_ones by lia. reflexivity. Qed.

Lemma shade_range c v : 0 <= shade c v /\ shade c v <= 255 # 1.
Proof.
  unfold shade, mathMin, mathMax.
  destruct (Num.le 0 (Num.add (inject_Z c) v)) eqn:H0;
    destruct (Num.le (255 # 1) _) eqn:H1;
    rewrite ?NumFacts.le_spec, ?NumFacts.le_false in *; lra.
Qed.

(** X16. The three channels that [createStoneTexture] takes from a colour
    are each between 0 and 255, and for a 24-bit colour they are its red,
    green and blue bytes: the colour is red * 65536 + green * 256 + blue.
    A channel shifted by any variation and clamped is between 0 and 255. *)
Theorem stone_channels (baseColor : Z) :
  (0 <= baseColor < 2 ^ 24)%Z ->
  (0 <= channelR baseColor <= 255)%Z /\
  (0 <= channelG baseColor <= 255)%Z /\
  (0 <= channelB baseColor <= 255)%Z /\
  baseColor = (channelR baseColor * 65536 + channelG baseColor * 256 + channelB baseColor)%Z /\
  (forall variation, 0 <= shade (channelR baseColor) variation /\
                     shade (channelR baseColor) variation <= 255 # 1).
Proof.
  intros Hc. unfold channelR, channelG, channelB.
  rewrite toInt32_small by lia. rewrite !land_255, !Z.shiftr_div_pow2 by lia.
  change (2 ^ 16)%Z with 65536%Z. change (2 ^ 8)%Z with 256%Z.
  change (2 ^ 24)%Z with 16777216%Z in Hc.
  repeat split; try apply shade_range;
    try (apply Z.mod_pos_bound; lia);
    try (pose proof (Z.mod_pos_bound (baseColor / 65536) 256);
         pose proof (Z.mod_pos_bound (baseColor / 256) 256);
         pose proof (Z.mod_pos_bound baseColor 256); lia).
  Z.to_euclidean_division_equations. lia.
Qed.

Lemma stone_channels_witness :
  (0 <= 6969928 < 2 ^ 24)%Z /\
  (0 <= channelR 6969928 <= 255)%Z /\
  (0 <= channelG 6969928 <= 255)%Z /\
  (0 <= channelB 6969928 <= 255)%Z /\
  6969928%Z = (channelR 6969928 * 65536 + channelG 6969928 * 256 + channelB 6969928)%Z /\
  (forall variation, 0 <= shade (channelR 6969928) variation /\
                     shade (channelR 6969928) variation <= 255 # 1).
Proof.
  split; [lia|]. apply (stone_channels 6969928). lia.
Defined.

(** * The score, the scroll speed, the start inputs and the jump *)

(** ** What the gem loop collects *)

Lemma forEachFrom_beyond {A S : Type} (arr : S -> list A) (cb : A -> nat -> S -> S) :
  forall len k s, (length (arr s) <= k)%nat -> forEachFrom arr cb k len s = s.
Proof.
  induction len as [|len IH]; intros k s Hk; [reflexivity|].
  rewrite forEachFrom_S, (lookup_ge_None_2 (arr s) k Hk). apply IH. lia.
Qed.

Lemma delete_middle_at {A : Type} (l1 l2 : list A) (x : A) :
  delete (length l1) (l1 ++ x :: l2) = l1 ++ l2.
Proof. induction l1 as [|y l1 IH]; [reflexivity|]. cbn [length app]. cbn. f_equal. exact IH. Qed.

Lemma insert_middle_at {A : Type} (l1 l2 : list A) (x y : A) :
  <[length l1 := y]> (l1 ++ x :: l2) = l1 ++ y :: l2.
Proof. rewrite insert_app_r_alt by lia. rewrite Nat.sub_diag. reflexivity. Qed.

Lemma collects_not_passed p gm :
  vz p = playerDepth -> collects p gm = true ->
  Num.gt (vz (gpos gm)) passThreshold = false.
Proof.
  intros Hp Hc. apply collects_spec in Hc as (_ & Hz & _). rewrite Hp in Hz.
  apply Qabs_Qlt_condition in Hz.
  unfold Num.gt. apply NumFacts.lt_false.
  unfold playerDepth, passThreshold in *. lra.
Qed.

(** One visit of the gem at the end of [l1], in terms of the array, the
    score and the player. *)
Lemma gemStep_visit sp gem l1 rest m :
  gems (fst m) = l1 ++ gem :: rest ->
  vz (player (fst m)) = playerDepth ->
  let gm := moveGem sp gem in
  let m' := gemStep sp gem (length l1) m in
  player (fst m') = player (fst m) /\
  (if collects (player (fst m)) gm
   then gems (fst m') = l1 ++ rest /\ score (fst m') = (score (fst m) + 10)%Z
   else if Num.gt (vz (gpos gm)) passThreshold
        then gems (fst m') = l1 ++ rest /\ score (fst m') = score (fst m)
        else gems (fst m') = l1 ++ gm :: rest /\ score (fst m') = score (fst m)).
Proof.
  destruct m as [g q]. cbn [fst]. intros Hg Hp. cbv zeta.
  unfold gemStep. cbn [setGems player]. rewrite Hg, insert_middle_at.
  destruct (collects (player g) (moveGem sp gem)) eqn:Hc.
  - rewrite (collects_not_passed _ _ Hp Hc).
    cbn [fst setGems setScore player gems score]. unfold splice1.
    rewrite delete_middle_at. auto.
  - destruct (Num.gt _ _); cbn [fst setGems player gems score]; unfold splice1;
      rewrite ?delete_middle_at; auto.
Qed.

(** The gem loop from the index [length l1] on is [gemsPass] on the gems
    from there on. *)
Lemma gems_loop_pass sp p : forall n l2 l1 m,
  gems (fst m) = l1 ++ l2 ->
  (length l2 <= n)%nat ->
  player (fst m) = p -> vz p = playerDepth ->
  let r := forEachFrom (fun m => gems (fst m)) (gemStep sp) (length l1) n m in
  gems (fst r) = l1 ++ fst (gemsPass p sp l2) /\
  score (fst r) = (score (fst m) + 10 * Z.of_nat (snd (gemsPass p sp l2)))%Z.
Proof.
  induction n as [|n IH]; intros l2 l1 m Hg Hn Hp Hz; cbv zeta.
  - destruct l2; [|cbn in Hn; lia]. cbn. rewrite Hg. split; [reflexivity | lia].
  - destruct l2 as [|gem rest].
    + rewrite forEachFrom_beyond by (rewrite Hg, app_nil_r; cbn; lia).
      cbn. rewrite Hg. split; [reflexivity | lia].
    + rewrite forEachFrom_S. cbn beta. rewrite Hg, (list_lookup_middle l1 rest gem _ eq_refl).
      assert (Hz' : vz (player (fst m)) = playerDepth) by (rewrite Hp; exact Hz).
      pose proof (gemStep_visit sp gem l1 rest m Hg Hz') as Hv. cbv zeta in Hv.
      rewrite Hp in Hv. destruct Hv as [Hp' Hv].
      set (m' := gemStep sp gem (length l1) m) in *.
      assert (Hpm : player (fst m') = p) by (rewrite Hp'; reflexivity).
      cbn [gemsPass]. cbn [length] in Hn.
      destruct (collects p (moveGem sp gem)) eqn:Hc; cbn [orb];
        [|destruct (Num.gt (vz (gpos (moveGem sp gem))) passThreshold) eqn:Hgt].
      * destruct Hv as [Hg' Hs'].
        destruct rest as [|next rest'].
        -- rewrite forEachFrom_beyond by (rewrite Hg', app_nil_r; lia).
           cbn. rewrite Hg', Hs'. split; [reflexivity | lia].
        -- replace (S (length l1)) with (length (l1 ++ [next]))
             by (rewrite length_app; cbn; lia).
           assert (Hg'' : gems (fst m') = (l1 ++ [next]) ++ rest')
             by (rewrite Hg', <- app_assoc; reflexivity).
           cbn [length] in Hn.
           destruct (IH rest' (l1 ++ [next]) m' Hg'' ltac:(lia) Hpm Hz) as [Ha Hb].
           destruct (gemsPass p sp rest') as [kept c]. cbn [fst snd] in *.
           rewrite Ha, Hb, Hs', <- app_assoc. split; [reflexivity | lia].
      * destruct Hv as [Hg' Hs'].
        destruct rest as [|next rest'].
        -- rewrite forEachFrom_beyond by (rewrite Hg', app_nil_r; lia).
           cbn. rewrite Hg', Hs'. split; [reflexivity | lia].
        -- replace (S (length l1)) with (length (l1 ++ [next]))
             by (rewrite length_app; cbn; lia).
           assert (Hg'' : gems (fst m') = (l1 ++ [next]) ++ rest')
             by (rewrite Hg', <- app_assoc; reflexivity).
           cbn [length] in Hn.
           destruct (IH rest' (l1 ++ [next]) m' Hg'' ltac:(lia) Hpm Hz) as [Ha Hb].
           destruct (gemsPass p sp rest') as [kept c]. cbn [fst snd] in *.
           rewrite Ha, Hb, Hs', <- app_assoc. split; [reflexivity | lia].
      * destruct Hv as [Hg' Hs'].
        replace (S (length l1)) with (length (l1 ++ [moveGem sp gem]))
          by (rewrite length_app; cbn; lia).
        assert (Hg'' : gems (fst m') = (l1 ++ [moveGem sp gem]) ++ rest)
          by (rewrite Hg', <- app_assoc; reflexivity).
        destruct (IH rest (l1 ++ [moveGem sp gem]) m' Hg'' ltac:(lia) Hpm Hz) as [Ha Hb].
        destruct (gemsPass p sp rest) as [kept c]. cbn [fst snd] in *.
        rewrite Ha, Hb, Hs', <- app_assoc. split; [reflexivity | lia].
Qed.

Lemma obstacleStep_keeps sp o k m :
  gems (fst (obstacleStep sp o k m)) = gems (fst m) /\
  score (fst (obstacleStep sp o k m)) = score (fst m).
Proof.
  destruct m as [g q]. unfold obstacleStep.
  destruct (hits _ _); [|destruct (Num.gt _ _)]; auto.
Qed.

(** A frame adds ten for each gem that its gem loop collects. *)
Lemma tick_collected f g q :
  vz (player g) = playerDepth ->
  score (fst (tick f (g, q))) = (score g + 10 * Z.of_nat (collectedGems f g))%Z.
Proof.
  intros Hz. unfold tick, collectedGems.
  set (g1 := bobGems f (jumpPhysics g)).
  assert (Hk : kin g1 = kin (jumpPhysics g)) by apply bobGems_kin.
  assert (Hs1 : speed g1 = speed g).
  { unfold kin in Hk. injection Hk as _ _ _ Hs _. rewrite Hs.
    unfold jumpPhysics. destruct (isJumping g); [destruct (Num.le _ _)|]; reflexivity. }
  assert (Hp1 : player g1 = player (jumpPhysics g)).
  { unfold kin in Hk. injection Hk as Hp _ _ _ _. exact Hp. }
  assert (Hz1 : vz (player (jumpPhysics g)) = playerDepth).
  { unfold jumpPhysics. destruct (isJumping g); [destruct (Num.le _ _)|]; exact Hz. }
  assert (Hsc1 : score g1 = score g).
  { unfold g1. rewrite bobGems_score. unfold jumpPhysics.
    destruct (isJumping g); [destruct (Num.le _ _)|]; reflexivity. }
  rewrite Hs1.
  set (m2 := forEach (fun m => obstacles (fst m)) (obstacleStep (speed g)) (g1, q)).
  assert (H2 : gems (fst m2) = gems g1 /\ score (fst m2) = score g1 /\
               player (fst m2) = player g1).
  { apply (forEach_preserves _ _
             (fun m => gems (fst m) = gems g1 /\ score (fst m) = score g1 /\
                       player (fst m) = player g1)); [|auto].
    intros a k s (Ha & Hb & Hc). destruct (obstacleStep_keeps (speed g) a k s) as [-> ->].
    pose proof (obstacleStep_kin (speed g) a k s) as Hkin. unfold kin in Hkin.
    injection Hkin as -> _ _ _ _. auto. }
  destruct H2 as (Hg2 & Hsc2 & Hp2).
  assert (Hg2' : gems (fst m2) = [] ++ gems g1) by exact Hg2.
  pose proof (gems_loop_pass (speed g) (player (jumpPhysics g)) (length (gems g1))
                (gems g1) [] m2 Hg2' (le_n _) ltac:(rewrite Hp2; exact Hp1) Hz1) as H3.
  cbv zeta in H3. cbn [length app] in H3. destruct H3 as [_ H3].
  unfold forEach at 1. rewrite Hg2.
  destruct (forEachFrom _ _ 0 (length (gems g1)) m2) as [g3 q3]. cbn [fst] in *.
  cbn [setSpeed score]. rewrite spawn_score, H3, Hsc2, Hsc1. reflexivity.
Qed.

Lemma playerDepth_reachable c es g :
  gameRef (run es (mount c)) = Some g -> vz (player g) = playerDepth.
Proof.
  apply (reachable_refHolds (fun g => vz (player g) = playerDepth)); auto.
  intros f g0 q H. destruct (tick_kin f g0 q) as (-> & _).
  unfold jumpPhysics. destruct (isJumping g0); [destruct (Num.le _ _)|]; exact H.
Qed.

(** ** The score: multiples of ten, starts and collected gems *)

Lemma startsRun_refScore e w :
  startsRun e (gameState w) = true -> refScore (handle e w) = 0%Z.
Proof.
  assert (Hjs : refScore (jump (startGame w)) = 0%Z).
  { destruct (jump_refScore (startGame w)) as [-> _]. apply startGame_refScore. }
  destruct e as [code| | |f]; cbn [handle startsRun].
  - unfold handleKeyDown.
    destruct code, (isPlaying (gameState w)), (isGameOver (gameState w)); cbn [negb andb orb];
      try discriminate; intros _; apply startGame_refScore.
  - unfold handleClick.
    destruct (isPlaying (gameState w)), (isGameOver (gameState w)); cbn [negb andb orb];
      try discriminate; intros _; apply startGame_refScore.
  - rewrite clickButton_cases.
    destruct (isPlaying (gameState w)), (isGameOver (gameState w)); cbn [negb andb orb];
      try discriminate; intros _; try apply startGame_refScore; exact Hjs.
  - discriminate.
Qed.

Lemma notStart_refScore e w :
  startsRun e (gameState w) = false ->
  (forall f, e <> AnimationFrame f) ->
  refScore (handle e w) = refScore w.
Proof.
  intros Hs Hf. destruct e as [code| | |f]; cbn [handle startsRun] in *.
  - unfold handleKeyDown.
    destruct code, (isPlaying (gameState w)), (isGameOver (gameState w));
      cbn [negb andb orb] in *; try discriminate; try reflexivity;
      try (destruct (jump_refScore w) as [-> _]; reflexivity);
      try (destruct (moveLeft_refScore w) as [-> _]; reflexivity);
      try (destruct (moveRight_refScore w) as [-> _]; reflexivity).
  - unfold handleClick.
    destruct (isPlaying (gameState w)), (isGameOver (gameState w));
      cbn [negb andb orb] in *; try discriminate; try reflexivity;
      destruct (jump_refScore w) as [-> _]; reflexivity.
  - rewrite clickButton_cases.
    destruct (isPlaying (gameState w)), (isGameOver (gameState w));
      cbn [negb andb orb] in *; try discriminate; reflexivity.
  - exfalso. apply (Hf f). reflexivity.
Qed.

(** C10. In every reachable state the score, in the ref and in the rendered
    state, is a non-negative multiple of 10.  Only two things change the
    score of the ref: an event that calls [startGame] sets it to 0, and a
    frame of a run adds exactly 10 for each gem that its gem loop collects;
    every other event leaves it as it is. *)
Theorem score_multiple_of_ten (c : bool) (es : list Event) :
  tens (refScore (run es (mount c))) /\
  tens (gsScore (gameState (run es (mount c)))) /\
  forall e : Event,
    refScore (step e (run es (mount c))) =
      if startsRun e (gameState (run es (mount c))) then 0%Z
      else match e, gameRef (run es (mount c)) with
           | AnimationFrame f, Some g =>
               if isPlaying (gameState (run es (mount c)))
               then (score g + 10 * Z.of_nat (collectedGems f g))%Z
               else score g
           | _, _ => refScore (run es (mount c))
           end.
Proof.
  split; [apply refScore_tens|]. split; [apply gsScore_tens|].
  intros e. unfold step.
  change (refScore (render ?w)) with (refScore w).
  destruct (startsRun e (gameState (run es (mount c)))) eqn:Hs.
  - apply startsRun_refScore, Hs.
  - destruct e as [code| | |f];
      try (rewrite (notStart_refScore _ _ Hs) by discriminate;
           destruct (gameRef (run es (mount c))); reflexivity).
    cbn [handle]. unfold refScore.
    destruct (gameRef (run es (mount c))) as [g|] eqn:Hg.
    + rewrite (gameLoop_gameRef f _ g Hg).
      destruct (isPlaying (gameState (run es (mount c)))); [|reflexivity].
      apply tick_collected. apply (playerDepth_reachable c es g Hg).
    + unfold gameLoop. rewrite Hg, Hg. reflexivity.
Qed.

(** ** Starts *)

(** A second call of [startGame] before the render changes nothing that
    the render keeps. *)
Lemma startGame_twice_render w :
  queue w = [] -> render (startGame (startGame w)) = render (startGame w).
Proof.
  intros Hq. destruct w as [r st q ct]. cbn in Hq. subst q.
  destruct r as [g|]; [reflexivity|]. destruct ct; reflexivity.
Qed.

(** An event that starts a run, outside a run, amounts to one call of
    [startGame] and a render. *)
Lemma start_event e w :
  queue w = [] -> isPlaying (gameState w) = false ->
  startsRun e (gameState w) = true ->
  step e w = render (startGame w).
Proof.
  intros Hq Hp Hs. unfold step.
  destruct e as [code| | |f]; cbn [handle startsRun] in *.
  - unfold handleKeyDown. rewrite Hp in *.
    destruct code, (isGameOver (gameState w)); cbn [negb andb orb] in *;
      try discriminate; reflexivity.
  - unfold handleClick. rewrite Hp in *.
    destruct (isGameOver (gameState w)); cbn [negb andb orb] in *;
      try discriminate; reflexivity.
  - rewrite clickButton_cases. rewrite Hp in *.
    destruct (isGameOver (gameState w)); cbn [negb andb orb] in *;
      [reflexivity | apply startGame_twice_render, Hq].
  - discriminate.
Qed.

Lemma run_flags es : forall w,
  isPlaying (gameState w) && isGameOver (gameState w) = false ->
  isPlaying (gameState (run es w)) && isGameOver (gameState (run es w)) = false.
Proof.
  induction es as [|e es IH]; intros w Hw; [exact Hw|].
  cbn [run fold_left]. apply IH. rewrite step_gameState.
  apply (applyUpdates_inv (fun st => isPlaying st && isGameOver st = false)); [|exact Hw].
  intros r u st Hst. destruct u; cbn; auto.
Qed.

(** ** Scroll speed *)

(** During a run no event lowers the speed, and a frame sets it to the sum
    of the speed and the increment. *)
Lemma playing_step_speed w g e :
  gameRef w = Some g ->
  isPlaying (gameState w) = true -> isGameOver (gameState w) = false ->
  exists g', gameRef (step e w) = Some g' /\ speed g <= speed g' /\
             forall f, e = AnimationFrame f -> speed g' = Num.add (speed g) speedIncrement.
Proof.
  intros Hg Hp Hgo. unfold step. rewrite render_gameRef.
  destruct e as [code| | |f]; cbn [handle].
  - unfold handleKeyDown. rewrite Hp, Hgo. cbn [negb andb orb].
    destruct code;
      [ destruct (jump_speed w g Hg) as (g' & Hg' & Hs)
      | destruct (moveLeft_speed w g Hg) as (g' & Hg' & Hs)
      | destruct (moveLeft_speed w g Hg) as (g' & Hg' & Hs)
      | destruct (moveRight_speed w g Hg) as (g' & Hg' & Hs)
      | destruct (moveRight_speed w g Hg) as (g' & Hg' & Hs)
      | assert (exists g', gameRef w = Some g' /\ speed g' = speed g)
          as (g' & Hg' & Hs) by eauto ];
      exists g'; rewrite Hg', Hs; (split; [reflexivity|]; split;
           [apply Qle_refl | discriminate]).
  - unfold handleClick. rewrite Hp, Hgo. cbn [negb andb orb].
    destruct (jump_speed w g Hg) as (g' & Hg' & Hs).
    exists g'. rewrite Hg', Hs. split; [reflexivity|]. split;
      [apply Qle_refl | discriminate].
  - rewrite clickButton_cases, Hp, Hgo. cbn [negb andb orb].
    exists g. rewrite Hg. split; [reflexivity|]. split;
      [apply Qle_refl | discriminate].
  - destruct (gameLoop_speed f w g Hg Hp) as (g' & Hg' & Hs).
    exists g'. rewrite Hg', Hs. split; [reflexivity|].
    split; [apply Qlt_le_weak, speed_step_up | reflexivity].
Qed.

(** C7. A start or restart (an event that calls [startGame] outside a run,
    with a ref or a container to make one) puts the component in the phase
    Playing with the scroll speed at the base value 0.15.  In the run that
    follows, and in every later one, no event lowers the scroll speed, and
    every frame raises it by the increment 0.00002: the new speed is larger
    than the old one and within the margin of the old one plus 0.00002
    (for speeds up to 1000, beyond which binary64 would no longer resolve
    the increment to that margin). *)
Theorem scrollSpeed_ramp_and_reset (w : World) (e : Event) :
  queue w = [] ->
  isPlaying (gameState w) = false ->
  (gameRef w <> None \/ container w = true) ->
  startsRun e (gameState w) = true ->
  (exists g0, gameRef (step e w) = Some g0 /\ speed g0 = baseSpeed) /\
  isPlaying (gameState (step e w)) = true /\
  isGameOver (gameState (step e w)) = false /\
  forall (es : list Event) (e' : Event) (g : Game),
    gameRef (run es (step e w)) = Some g ->
    isPlaying (gameState (run es (step e w))) = true ->
    exists g', gameRef (step e' (run es (step e w))) = Some g' /\
               speed g <= speed g' /\
               forall f, e' = AnimationFrame f -> speed g <= 1000 # 1 ->
                         speed g < speed g' /\
                         Qabs (speed g' - (speed g + speedIncrement)) <= tolerance.
Proof.
  intros Hq Hp Href Hs.
  rewrite (start_event e w Hq Hp Hs).
  destruct (startGame_resets w Href) as (g0 & Hg0 & _ & Hsp & _).
  pose proof (startGame_render w Hq) as Hst.
  split; [exists g0; rewrite render_gameRef; auto|].
  rewrite Hst. split; [reflexivity|]. split; [reflexivity|].
  intros es e' g Hg Hpl.
  assert (Hfl : isPlaying (gameState (run es (render (startGame w))))
                && isGameOver (gameState (run es (render (startGame w)))) = false).
  { apply run_flags. rewrite Hst. reflexivity. }
  rewrite Hpl in Hfl. cbn [andb] in Hfl.
  destruct (playing_step_speed _ g e' Hg Hpl Hfl) as (g' & Hg' & Hle & Hf).
  exists g'. split; [exact Hg'|]. split; [exact Hle|].
  intros f He _. rewrite (Hf f He).
  split; [apply speed_step_up|].
  pose proof (NumFacts.add_eq (speed g) speedIncrement) as Ha.
  apply Qabs_Qle_condition. unfold tolerance. lra.
Qed.

Lemma scrollSpeed_ramp_and_reset_witness :
  queue hitWhileRisingWorld = [] /\
  isPlaying (gameState hitWhileRisingWorld) = false /\
  (gameRef hitWhileRisingWorld <> None \/ container hitWhileRisingWorld = true) /\
  startsRun Button (gameState hitWhileRisingWorld) = true /\
  (exists g0, gameRef (step Button hitWhileRisingWorld) = Some g0 /\ speed g0 = baseSpeed) /\
  isPlaying (gameState (step Button hitWhileRisingWorld)) = true /\
  isGameOver (gameState (step Button hitWhileRisingWorld)) = false /\
  forall (es : list Event) (e' : Event) (g : Game),
    gameRef (run es (step Button hitWhileRisingWorld)) = Some g ->
    isPlaying (gameState (run es (step Button hitWhileRisingWorld))) = true ->
    exists g', gameRef (step e' (run es (step Button hitWhileRisingWorld))) = Some g' /\
               speed g <= speed g' /\
               forall f, e' = AnimationFrame f -> speed g <= 1000 # 1 ->
                         speed g < speed g' /\
                         Qabs (speed g' - (speed g + speedIncrement)) <= tolerance.
Proof.
  assert (Href : gameRef hitWhileRisingWorld <> None \/ container hitWhileRisingWorld = true)
    by (right; reflexivity).
  split; [reflexivity|]. split; [reflexivity|]. split; [exact Href|]. split; [reflexivity|].
  apply (scrollSpeed_ramp_and_reset hitWhileRisingWorld Button);
    [reflexivity | reflexivity | exact Href | reflexivity].
Defined.

(** ** The three ways to start *)

(** X8. On the start screen, with nothing queued, Space and a click on the
    window call [startGame] once and a click on [Begin Quest] calls it
    twice, the second time from the listener of the window; after the
    render the three give the same component: score 0, Playing, the high
    score kept, and the ref reset (made first where it was null and there is
    a container). *)
Theorem start_inputs_agree (w : World) :
  queue w = [] ->
  isPlaying (gameState w) = false ->
  isGameOver (gameState w) = false ->
  handle (KeyDown Space) w = startGame w /\
  handle Click w = startGame w /\
  handle Button w = startGame (startGame w) /\
  queue (handle Button w) = [UStart; UStart] /\
  step (KeyDown Space) w = render (startGame w) /\
  step Click w = render (startGame w) /\
  step Button w = render (startGame w) /\
  gameState (render (startGame w)) = mkGameState 0 true false (highScore (gameState w)) /\
  gameRef (render (startGame w)) =
    resetGame <$> (match gameRef w with
                   | Some g => Some g
                   | None => if container w then Some freshGame else None
                   end).
Proof.
  intros Hq Hp Hgo.
  assert (H1 : handle (KeyDown Space) w = startGame w)
    by (cbn [handle]; unfold handleKeyDown; rewrite Hp, Hgo; reflexivity).
  assert (H2 : handle Click w = startGame w)
    by (cbn [handle]; unfold handleClick; rewrite Hp, Hgo; reflexivity).
  assert (H3 : handle Button w = startGame (startGame w))
    by (cbn [handle]; rewrite clickButton_cases, Hp, Hgo; reflexivity).
  split; [exact H1|]. split; [exact H2|]. split; [exact H3|].
  split; [rewrite H3, !startGame_queue, Hq; reflexivity|].
  unfold step. rewrite H1, H2, H3.
  split; [reflexivity|]. split; [reflexivity|].
  split; [apply startGame_twice_render, Hq|].
  split; [apply startGame_render, Hq|].
  rewrite render_gameRef. unfold startGame, initGame. cbn [enqueue setRef gameRef].
  destruct (gameRef w) as [g0|] eqn:Hg; [rewrite Hg; reflexivity|].
  destruct (container w); cbn; [reflexivity | rewrite Hg; reflexivity].
Qed.

Lemma start_inputs_agree_witness :
  queue (mount true) = [] /\
  isPlaying (gameState (mount true)) = false /\
  isGameOver (gameState (mount true)) = false /\
  handle (KeyDown Space) (mount true) = startGame (mount true) /\
  handle Click (mount true) = startGame (mount true) /\
  handle Button (mount true) = startGame (startGame (mount true)) /\
  queue (handle Button (mount true)) = [UStart; UStart] /\
  step (KeyDown Space) (mount true) = render (startGame (mount true)) /\
  step Click (mount true) = render (startGame (mount true)) /\
  step Button (mount true) = render (startGame (mount true)) /\
  gameState (render (startGame (mount true)))
  = mkGameState 0 true false (highScore (gameState (mount true))) /\
  gameRef (render (startGame (mount true))) =
    resetGame <$> (match gameRef (mount true) with
                   | Some g => Some g
                   | None => if container (mount true) then Some freshGame else None
                   end).
Proof.
  split; [reflexivity|]. split; [reflexivity|]. split; [reflexivity|].
  apply (start_inputs_agree (mount true)); reflexivity.
Defined.

(** ** The arc of a jump *)

Lemma frames_outside_run fs : forall w,
  queue w = [] -> isPlaying (gameState w) = false ->
  run (AnimationFrame <$> fs) w = w.
Proof.
  induction fs as [|f fs IH]; intros w Hq Hp; [reflexivity|].
  cbn [fmap list_fmap run fold_left].
  assert (Hstep : step (AnimationFrame f) w = w).
  { unfold step. cbn [handle]. unfold gameLoop. rewrite Hp. cbn [negb].
    destruct (gameRef w); apply render_noUpdates_world, Hq. }
  rewrite Hstep. apply IH; assumption.
Qed.

(** Frames of a run that is still going at the end: the height, the
    velocity and the flag follow [arcStep]. *)
Lemma frames_arcStep fs : forall w g,
  queue w = [] -> gameRef w = Some g ->
  isPlaying (gameState (run (AnimationFrame <$> fs) w)) = true ->
  exists g', gameRef (run (AnimationFrame <$> fs) w) = Some g' /\
             jumpState g' = Nat.iter (length fs) arcStep (jumpState g).
Proof.
  induction fs as [|f fs IH]; intros w g Hq Hg Hend.
  - exists g. auto.
  - destruct (isPlaying (gameState w)) eqn:Hp.
    + cbn [fmap list_fmap run fold_left] in *.
      assert (Hg1 : gameRef (step (AnimationFrame f) w) = Some (fst (tick f (g, [])))).
      { unfold step. rewrite render_gameRef. cbn [handle].
        rewrite (gameLoop_gameRef f w g Hg), Hp, Hq. reflexivity. }
      destruct (IH (step (AnimationFrame f) w) _ eq_refl Hg1 Hend) as (g' & Hg' & Hj).
      exists g'. split; [exact Hg'|].
      rewrite Hj, tick_arcStep. cbn [length]. rewrite Nat.iter_succ_r. reflexivity.
    + rewrite (frames_outside_run (f :: fs) w Hq Hp) in Hend. congruence.
Qed.

(** X10. A jump from the ground, in a run that is still going [k] frames
    later: for [k < 35] the player is in the air, within the margin of the
    height 0.6 + 0.25 k - 0.0075 k (k - 1), below 2.82 and, for k > 0, above
    the ground; for [k >= 35], with no new jump, the player is back on the
    ground at 0.6 with velocity 0 and the flag clear. *)
Theorem jump_arc (w : World) (g : Game) (fs : list Frame) :
  queue w = [] ->
  gameRef w = Some g ->
  isPlaying (gameState w) = true ->
  isJumping g = false ->
  vy (player g) = groundLevel ->
  isPlaying (gameState (run (KeyDown Space :: (AnimationFrame <$> fs)) w)) = true ->
  exists g', gameRef (run (KeyDown Space :: (AnimationFrame <$> fs)) w) = Some g' /\
    ((length fs < 35)%nat ->
     isJumping g' = true /\
     Qabs (vy (player g') - arcHeight (length fs)) <= tolerance /\
     vy (player g') <= 282 # 100 /\
     ((0 < length fs)%nat -> groundLevel < vy (player g'))) /\
    ((35 <= length fs)%nat ->
     isJumping g' = false /\ vy (player g') = groundLevel /\ jumpVelocity g' = 0).
Proof.
  intros Hq Hg Hp Hj Hy Hend.
  cbn [run fold_left] in *.
  assert (Hs : step (KeyDown Space) w
               = mkWorld (Some (setJump true jumpImpulse g)) (gameState w) [] (container w)).
  { unfold step. cbn [handle]. unfold handleKeyDown. rewrite Hp. cbn [negb andb orb].
    unfold jump. rewrite Hg, Hj. unfold render. cbn. rewrite Hq. reflexivity. }
  rewrite Hs in *.
  destruct (frames_arcStep fs
              (mkWorld (Some (setJump true jumpImpulse g)) (gameState w) [] (container w))
              (setJump true jumpImpulse g) eq_refl eq_refl Hend)
    as (g' & Hg' & H).
  exists g'. split; [exact Hg'|].
  unfold jumpState at 2 in H. cbn [setJump player jumpVelocity isJumping] in H.
  rewrite Hy in H. unfold jumpState in H.
  split; intros Hk.
  - pose proof arc_first_frames as Hall.
    rewrite forallb_forall in Hall.
    assert (Hin : In (length fs) (seq 0 35)) by (apply in_seq; lia).
    specialize (Hall _ Hin). unfold arcOK in Hall. rewrite <- H in Hall.
    rewrite !andb_true_iff in Hall. destruct Hall as [[[Ha Hb] Hc] Hd].
    apply Qeq_bool_iff in Hb. apply NumFacts.le_spec in Hc.
    split; [exact Ha|].
    split; [apply Qabs_Qle_condition; unfold tolerance; lra|].
    split; [lra|].
    intros Hpos. apply orb_true_iff in Hd as [Hd|Hd].
    + apply Nat.eqb_eq in Hd. lia.
    + apply NumFacts.lt_spec, Hd.
  - replace (length fs) with (length fs - 35 + 35)%nat in H by lia.
    rewrite arc_landed in H. injection H as -> -> ->. auto.
Qed.

Lemma jump_arc_witness :
  queue started = [] /\
  gameRef started = Some freshGame /\
  isPlaying (gameState started) = true /\
  isJumping freshGame = false /\
  vy (player freshGame) = groundLevel /\
  isPlaying (gameState (run (KeyDown Space :: (AnimationFrame <$> repeat quietFrame 17))
                            started)) = true /\
  exists g', gameRef (run (KeyDown Space :: (AnimationFrame <$> repeat quietFrame 17)) started)
             = Some g' /\
    ((length (repeat quietFrame 17) < 35)%nat ->
     isJumping g' = true /\
     Qabs (vy (player g') - arcHeight (length (repeat quietFrame 17))) <= tolerance /\
     vy (player g') <= 282 # 100 /\
     ((0 < length (repeat quietFrame 17))%nat -> groundLevel < vy (player g'))) /\
    ((35 <= length (repeat quietFrame 17))%nat ->
     isJumping g' = false /\ vy (player g') = groundLevel /\ jumpVelocity g' = 0).
Proof.
  split; [reflexivity|]. split; [reflexivity|]. split; [reflexivity|].
  split; [reflexivity|]. split; [reflexivity|].
  split; [vm_compute; reflexivity|].
  apply (jump_arc started freshGame (repeat quietFrame 17));
    vm_compute; reflexivity.
Defined.

(** ** The rational model against binary64 *)

(** The first 35 frames of a jump in binary64: in the air and within the
    margin of the rational height for k < 35, strictly between 0.6 (for
    k > 0) and 2.81; on the ground after 35 frames. *)
Lemma arc_binary64 :
  forallb Binary64.arcCheckF (seq 0 35) = true /\
  Nat.iter 35 Binary64.arcStepF Binary64.arcStartF = (0.6%float, 0%float, false).
Proof. split; vm_compute; reflexivity. Qed.

(** The first 100000 frames of a run in binary64, from the base speed: each
    frame leaves a speed larger than the one before and within the margin of
    it plus 0.00002. *)
Lemma ramp_binary64 :
  snd (N.iter 100000 Binary64.rampCheckF (0.15%float, true)) = true.
Proof. vm_compute. reflexivity. Qed.
